(** * Interactive tournament: comparator-driven merge sort and its oracles

    A shallow embedding of the Go sources [main.go] (console engine and
    console oracle) and [tui.go] (comparator engine and Bubbletea model),
    with the properties of the ranking engine proved over it. *)

From Stdlib Require Import ZArith String Ascii Lia OrderedTypeEx Sorted DecimalString.
From stdpp Require Import base list strings gmap.

Local Open Scope nat_scope.

(** ** Processes: state passing with process termination

    A Go function that may perform effects on a state [St] either returns a
    value, or ends the whole process ([os.Exit code]).  [OutOfFuel] is an
    artefact of the embedding: loops are unfolded a bounded number of times
    and the bound is shown below to be large enough in every run. *)

Inductive outcome (St A : Type) : Type :=
| Returned (a : A) (s : St)
| Exited (code : Z) (s : St)
| OutOfFuel.

Arguments Returned {St A} a s.
Arguments Exited {St A} code s.
Arguments OutOfFuel {St A}.

Definition proc (St A : Type) : Type := St -> outcome St A.

Definition ret {St A : Type} (a : A) : proc St A := fun s => Returned a s.

Definition bind {St A B : Type} (m : proc St A) (k : A -> proc St B) : proc St B :=
  fun s =>
    match m s with
    | Returned a s' => k a s'
    | Exited c s' => Exited c s'
    | OutOfFuel => OutOfFuel
    end.

Definition omap {St A B : Type} (f : A -> B) (o : outcome St A) : outcome St B :=
  match o with
  | Returned a s => Returned (f a) s
  | Exited c s => Exited c s
  | OutOfFuel => OutOfFuel
  end.

Notation "'let*' x ':=' m 'in' k" := (bind m (fun x => k))
  (at level 10, x name, m at level 100, k at level 200, only parsing).

(** A comparator as the engine sees it: a callback that may touch the
    state (ask a human, log the call, consume a scripted answer) and may
    never come back. *)
Definition comparator (St : Type) : Type := string -> string -> proc St bool.

(** ** The engine of [tui.go] *)

Section Engine.
Context {St : Type}.
Variable cmp : comparator St.

(** First loop of [mergeWithCmp]:
    [for i < len(left) && j < len(right) { if cmp(left[i], right[j]) ... }].
    [left !! i = Some a] says both that [i < len(left)] and that
    [left[i]] is [a]. *)
Fixpoint merge_loop (fuel : nat) (left right : list string) (i j : nat)
    (out : list string) : proc St (nat * nat * list string) :=
  fun s =>
    match left !! i, right !! j with
    | Some a, Some b =>
        match fuel with
        | 0 => OutOfFuel
        | S fuel' =>
            match cmp a b s with
            | Returned true s' =>
                merge_loop fuel' left right (i + 1) j (out ++ [a]) s'
            | Returned false s' =>
                merge_loop fuel' left right i (j + 1) (out ++ [b]) s'
            | Exited c s' => Exited c s'
            | OutOfFuel => OutOfFuel
            end
        end
    | _, _ => Returned (i, j, out) s
    end.

(** The two closing loops:
    [for i < len(xs) { out = append(out, xs[i]); i++ }],
    run for the [len(xs) - i] turns its guard allows. *)
Fixpoint copy_rest (turns : nat) (xs : list string) (i : nat)
    (out : list string) : list string :=
  match turns with
  | 0 => out
  | S turns' =>
      match xs !! i with
      | Some x => copy_rest turns' xs (i + 1) (out ++ [x])
      | None => out
      end
  end.

Definition mergeWithCmp (left right : list string) : proc St (list string) :=
  let* r := merge_loop (length left + length right) left right 0 0 [] in
  let '(i, j, out) := r in
  let out := copy_rest (length left - i) left i out in
  let out := copy_rest (length right - j) right j out in
  ret out.

(** [mergeSortWithCmp]; the recursion is on slices of [items], so it is
    unfolded at most [fuel] levels deep. *)
Fixpoint mergeSort_fuel (fuel : nat) (items : list string)
    : proc St (list string) :=
  if decide (length items <= 1) then ret items
  else
    match fuel with
    | 0 => fun _ => OutOfFuel
    | S fuel' =>
        let mid := length items / 2 in
        let* left := mergeSort_fuel fuel' (take mid items) in
        let* right := mergeSort_fuel fuel' (drop mid items) in
        mergeWithCmp left right
    end.

Definition mergeSortWithCmp (items : list string) : proc St (list string) :=
  mergeSort_fuel (length items) items.

(** *** The merge as the specification words it

    Two read cursors become the two remaining suffixes; one call of the
    oracle per emitted item while both are non-empty, and the remainder
    of the other side verbatim once one side is exhausted. *)
Fixpoint spec_merge (left : list string) : list string -> proc St (list string) :=
  fix inner (right : list string) : proc St (list string) :=
    match left, right with
    | [], _ => ret right
    | _, [] => ret left
    | a :: left', b :: right' =>
        fun s =>
          match cmp a b s with
          | Returned true s' => omap (cons a) (spec_merge left' right s')
          | Returned false s' => omap (cons b) (inner right' s')
          | Exited c s' => Exited c s'
          | OutOfFuel => OutOfFuel
          end
    end.

(** The comparator always comes back with an answer. *)
Definition answers : Prop :=
  forall x y s, exists b s', cmp x y s = Returned b s'.

End Engine.

(** A Go closure that returns: any function of the two items and the
    state captured by the closure. *)
Definition of_fun {St : Type} (c : string -> string -> St -> bool * St)
    : comparator St :=
  fun x y s => let '(b, s') := c x y s in Returned b s'.

(** A comparator without state. *)
Definition pure_cmp (f : string -> string -> bool) : comparator unit :=
  fun x y s => Returned (f x y) s.

(** The test double that counts oracle invocations: it passes each
    question on and records the two items and the reply, in order. *)
Definition call : Type := (string * string * bool)%type.

Definition traced {St : Type} (cmp : comparator St)
    : comparator (St * list call) :=
  fun x y sl =>
    match cmp x y (fst sl) with
    | Returned b s' => Returned b (s', snd sl ++ [(x, y, b)])
    | Exited c s' => Exited c (s', snd sl)
    | OutOfFuel => OutOfFuel
    end.

(** *** Oracles that follow an order

    [prefers x y = true] reads "[x] is strictly preferred to [y]". *)

Record strict_total_order (prefers : string -> string -> bool) : Prop := {
  sto_irrefl : forall x, prefers x x = false;
  sto_trans : forall x y z,
    prefers x y = true -> prefers y z = true -> prefers x z = true;
  sto_total : forall x y, x <> y -> prefers x y = true \/ prefers y x = true
}.

(** The comparator answers by [prefers], whatever else it does to its
    state. *)
Definition implements {St : Type} (cmp : comparator St)
    (prefers : string -> string -> bool) : Prop :=
  forall x y s, exists s', cmp x y s = Returned (prefers x y) s'.

(** Most preferred first: no item is strictly preferred to one that comes
    before it. *)
Definition descending (prefers : string -> string -> bool) (l : list string) : Prop :=
  StronglySorted (fun x y => prefers y x = false) l.

(** Items that the order does not tell apart keep the relative order they
    had in the input. *)
Definition stable (prefers : string -> string -> bool) (items out : list string) : Prop :=
  forall x,
    filter (fun y => prefers x y = false /\ prefers y x = false) out =
    filter (fun y => prefers x y = false /\ prefers y x = false) items.

(** An order that may leave distinct items tied, as a ranking by score
    does: irreflexive, transitive, and an item preferred to another is
    preferred to, or beaten by, any third one. *)
Record strict_weak_order (prefers : string -> string -> bool) : Prop := {
  swo_irrefl : forall x, prefers x x = false;
  swo_trans : forall x y z,
    prefers x y = true -> prefers y z = true -> prefers x z = true;
  swo_neg_trans : forall x y z,
    prefers x z = true -> prefers x y = true \/ prefers y z = true
}.

(** Items that the order does not tell apart come out in the reverse of
    the order they had in the input. *)
Definition ties_reversed (prefers : string -> string -> bool)
    (items out : list string) : Prop :=
  forall x,
    filter (fun y => prefers x y = false /\ prefers y x = false) out =
    reverse (filter (fun y => prefers x y = false /\ prefers y x = false) items).

(** The call asks about the items at two places of [items], the first
    option standing before the second. *)
Definition earlier_against_later (items : list string) (c : call) : Prop :=
  exists i j, i < j /\ items !! i = Some (fst (fst c)) /\ items !! j = Some (snd (fst c)).

(** The outcome leaves the state in [Inv] when it returns, and in
    [AtExit code] when it ends the process. *)
Definition kept {St R : Type} (Inv : St -> Prop) (AtExit : Z -> St -> Prop)
    (o : outcome St R) : Prop :=
  match o with
  | Returned _ s' => Inv s'
  | Exited c s' => AtExit c s'
  | OutOfFuel => True
  end.

(** Dropping the record of the test double from an outcome. *)
Definition forget {St L A : Type} (o : outcome (St * L) A) : outcome St A :=
  match o with
  | Returned a sl => Returned a (fst sl)
  | Exited c sl => Exited c (fst sl)
  | OutOfFuel => OutOfFuel
  end.

(** ** The console program of [main.go] *)

Definition nl : string := String (ascii_of_nat 10) EmptyString.

(** The two functions of Go's [strings] package that [askPreference]
    calls.  They belong to the Go library, not to this program, so the
    program is modelled over any implementation of them. *)
Class StringsPkg : Type := {
  TrimSpace : string -> string;
  ToLower : string -> string
}.

(** What the process can observe and change: the unread part of standard
    input behind the shared [reader], and what has been written, one entry
    per [fmt] call. *)
Record world : Type := World {
  stdin : string;
  stdout : list string;
  stderr : list string
}.

Definition Print (txt : string) : proc world unit :=
  fun w => Returned tt (World (stdin w) (stdout w ++ [txt]) (stderr w)).

Definition Println (txt : string) : proc world unit := Print (txt ++ nl).

Definition Fprint_stderr (txt : string) : proc world unit :=
  fun w => Returned tt (World (stdin w) (stdout w) (stderr w ++ [txt])).

Definition os_Exit {A : Type} (code : Z) : proc world A :=
  fun w => Exited code w.

(** [split_line s] cuts [s] after its first newline. *)
Fixpoint split_line (s : string) : option (string * string) :=
  match s with
  | EmptyString => None
  | String c s' =>
      if Ascii.eqb c (ascii_of_nat 10) then Some (String c EmptyString, s')
      else
        match split_line s' with
        | Some (line, rest) => Some (String c line, rest)
        | None => None
        end
  end.

(** [reader.ReadString('\n')]: the next line with its newline, or the
    error [io.EOF] ([None]) when the input ends first. *)
Definition ReadString : proc world (option string) :=
  fun w =>
    match split_line (stdin w) with
    | Some (line, rest) => Returned (Some line) (World rest (stdout w) (stderr w))
    | None => Returned None (World EmptyString (stdout w) (stderr w))
    end.

Definition invalid_notice : string :=
  "Invalid input; please enter 1 or 2 (or q to quit).".

Definition prompt (a b : string) : list string :=
  [ "Which do you prefer?" ++ nl;
    "  1) " ++ a ++ nl;
    "  2) " ++ b ++ nl;
    "Enter 1 or 2 (or q to quit): " ]%string.

(** The text of [line] holds no newline, so it is one line of input. *)
Fixpoint one_line (line : string) : bool :=
  match line with
  | EmptyString => true
  | String c rest => negb (Ascii.eqb c (ascii_of_nat 10)) && one_line rest
  end.

Section Console.
Context `{StringsPkg}.

  (** [askPreference]: the [for { ... }] loop runs once per line read, so
      it is unfolded at most once per character of input, plus once. *)
Fixpoint askPreference_loop (fuel : nat) (a b : string) : proc world bool :=
    match fuel with
    | 0 => fun _ => OutOfFuel
    | S fuel' =>
        let* _ := Println "Which do you prefer?" in
        let* _ := Print ("  1) " ++ a ++ nl) in
        let* _ := Print ("  2) " ++ b ++ nl) in
        let* _ := Print "Enter 1 or 2 (or q to quit): " in
        let* r := ReadString in
        match r with
        | None =>
            let* _ := Fprint_stderr ("read error: EOF" ++ nl) in
            os_Exit 1
        | Some resp =>
            let resp := TrimSpace resp in
            let k := ToLower resp in
            if bool_decide (k = "1" \/ k = "a")%string then ret true
            else if bool_decide (k = "2" \/ k = "b")%string then ret false
            else if bool_decide (k = "q" \/ k = "quit" \/ k = "exit")%string then
              let* _ := Println "Quitting." in
              os_Exit 0
            else
              let* _ := Println invalid_notice in
              askPreference_loop fuel' a b
        end
    end.

Definition askPreference (a b : string) : proc world bool :=
    fun w => askPreference_loop (S (String.length (stdin w))) a b w.

Fixpoint interactive_merge_loop (fuel : nat) (left right : list string)
      (i j : nat) (out : list string) : proc world (nat * nat * list string) :=
    fun w =>
      match left !! i, right !! j with
      | Some a, Some b =>
          match fuel with
          | 0 => OutOfFuel
          | S fuel' =>
              match askPreference a b w with
              | Returned true w' =>
                  interactive_merge_loop fuel' left right (i + 1) j (out ++ [a]) w'
              | Returned false w' =>
                  interactive_merge_loop fuel' left right i (j + 1) (out ++ [b]) w'
              | Exited c w' => Exited c w'
              | OutOfFuel => OutOfFuel
              end
          end
      | _, _ => Returned (i, j, out) w
      end.

Definition interactiveMerge (left right : list string) : proc world (list string) :=
    let* r := interactive_merge_loop (length left + length right) left right 0 0 [] in
    let '(i, j, out) := r in
    let out := copy_rest (length left - i) left i out in
    let out := copy_rest (length right - j) right j out in
    ret out.

Fixpoint interactiveMergeSort_fuel (fuel : nat) (items : list string)
      : proc world (list string) :=
    if decide (length items <= 1) then ret items
    else
      match fuel with
      | 0 => fun _ => OutOfFuel
      | S fuel' =>
          let mid := length items / 2 in
          let* left := interactiveMergeSort_fuel fuel' (take mid items) in
          let* right := interactiveMergeSort_fuel fuel' (drop mid items) in
          interactiveMerge left right
      end.

Definition interactiveMergeSort (items : list string) : proc world (list string) :=
    interactiveMergeSort_fuel (length items) items.

(** What one turn of the loop of [askPreference] does, by cases on the
    line it reads. *)
Definition ask_turn (again : string -> string -> proc world bool)
    (a b : string) : proc world bool :=
  fun w =>
    let asked := stdout w ++ prompt a b in
    match split_line (stdin w) with
    | None =>
        Exited 1 (World EmptyString asked (stderr w ++ ["read error: EOF" ++ nl]%string))
    | Some (line, rest) =>
        let k := ToLower (TrimSpace line) in
        if bool_decide (k = "1" \/ k = "a")%string then
          Returned true (World rest asked (stderr w))
        else if bool_decide (k = "2" \/ k = "b")%string then
          Returned false (World rest asked (stderr w))
        else if bool_decide (k = "q" \/ k = "quit" \/ k = "exit")%string then
          Exited 0 (World rest (asked ++ ["Quitting." ++ nl]%string) (stderr w))
        else
          again a b (World rest (asked ++ [invalid_notice ++ nl]%string) (stderr w))
    end.

(** The answers the oracle recognises, after trimming and lower-casing. *)
Definition recognised (k : string) : bool :=
  bool_decide (k ∈ ["1"; "a"; "2"; "b"; "q"; "quit"; "exit"]%string).

(** A line (without its newline) that the oracle rejects. *)
Definition rejected (line : string) : bool :=
  one_line line && negb (recognised (ToLower (TrimSpace (line +:+ nl)))).

End Console.

(** How the console program can end while it asks: status 0 after
    ["Quitting."], nothing written to the error stream; or status 1 at the
    end of the input, with the read error as the one new line of the error
    stream [e]. *)
Definition console_exit (e : list string) (c : Z) (w' : world) : Prop :=
  (c = 0%Z /\ stderr w' = e /\ last (stdout w') = Some ("Quitting." +:+ nl)%string) \/
  (c = 1%Z /\ stdin w' = EmptyString /\
   stderr w' = e ++ ["read error: EOF" +:+ nl]%string).

(** The input made of the given lines, each closed by a newline, and then
    [rest]. *)
Definition feed (lines : list string) (rest : string) : string :=
  foldr (fun line acc => line +:+ nl +:+ acc) rest lines.

(** The line a user types to give the reply [b]. *)
Definition answer_line (b : bool) : string :=
  if b then "1"%string else "2"%string.

(** The lines that replay the replies of the recorded calls. *)
Definition answer_lines (k : list call) : list string :=
  map (fun c : call => answer_line (snd c)) k.

(** The prompts of the recorded calls, in order. *)
Definition prompts (k : list call) : list string :=
  concat (map (fun c : call => prompt (fst (fst c)) (snd (fst c))) k).

(** What the oracle prints while it turns down [n] lines. *)
Definition retries (n : nat) (a b : string) : list string :=
  concat (replicate n (prompt a b ++ [invalid_notice +:+ nl])).

(** *** Go's [strings] functions on ASCII text

    [strings.TrimSpace] and [strings.ToLower] restricted to what they do on
    ASCII input: white space is tab, newline, vertical tab, form feed,
    carriage return and space; upper-case letters are [A]..[Z].  Used for
    the concrete console scenarios. *)

Definition is_space (c : ascii) : bool :=
  let n := nat_of_ascii c in
  ((9 <=? n) && (n <=? 13)) || (n =? 32).

Fixpoint trim_left (s : string) : string :=
  match s with
  | EmptyString => EmptyString
  | String c s' => if is_space c then trim_left s' else s
  end.

Fixpoint trim_right (s : string) : string :=
  match s with
  | EmptyString => EmptyString
  | String c s' =>
      match trim_right s' with
      | EmptyString => if is_space c then EmptyString else String c EmptyString
      | t => String c t
      end
  end.

Definition lower_ascii (c : ascii) : ascii :=
  let n := nat_of_ascii c in
  if (65 <=? n) && (n <=? 90) then ascii_of_nat (n + 32) else c.

Fixpoint map_string (f : ascii -> ascii) (s : string) : string :=
  match s with
  | EmptyString => EmptyString
  | String c s' => String (f c) (map_string f s')
  end.

#[export] Instance ascii_strings : StringsPkg := {|
  TrimSpace s := trim_right (trim_left s);
  ToLower s := map_string lower_ascii s
|}.

(** ** The rest of [main.go]: reading the items, printing the ranking *)

(** [strings.Split(s, "\n")]: the pieces of [s] between newlines; one
    empty piece for the empty text. *)
Fixpoint Split_lines (s : string) : list string :=
  match s with
  | EmptyString => [EmptyString]
  | String c s' =>
      if Ascii.eqb c (ascii_of_nat 10) then EmptyString :: Split_lines s'
      else
        match Split_lines s' with
        | piece :: pieces => String c piece :: pieces
        | [] => [String c EmptyString]
        end
  end.

(** [fmt]'s [%d] of a non-negative [int]. *)
Definition show_nat (n : nat) : string := NilEmpty.string_of_uint (Nat.to_uint n).

(** One line of the ranking: [fmt.Sprintf("%d. %s\n", i+1, it)]. *)
Definition ranking_line (i : nat) (it : string) : string :=
  (show_nat (i + 1) +:+ ". " +:+ it +:+ nl)%string.

(** The lines of the ranking, numbered from 1. *)
Definition ranking_lines (sorted : list string) : list string :=
  imap ranking_line sorted.

(** The text of the ranking as it is written to a file. *)
Definition file_text (sorted : list string) : string :=
  foldr String.append EmptyString (ranking_lines sorted).

(** What [main] prints before the ranking, and before the questions. *)
Definition ranking_header : string :=
  (nl +:+ "Final ranking (best -> worst):" +:+ nl)%string.

Definition questions_banner (n : nat) : list string :=
  [ nl +:+ "Got " +:+ show_nat n +:+
      " items. We'll ask pairwise questions to rank them." +:+ nl;
    "On each prompt enter 1 or 2 to choose the item you prefer. Enter q to quit."
      +:+ nl +:+ nl ]%string.

Definition items_banner : string :=
  ("Enter items to sort, one per line. Submit an empty line when done:" +:+ nl)%string.

(** The files of the machine, by path, and the process state with them. *)
Record machine : Type := Machine {
  console : world;
  files : gmap string string
}.

(** What the program needs from the operating system and from the other
    source file: reading a file ([inl] the text of the error), whether
    [os.Create] refuses a path (the text of the error), and [RunTUI], whose
    goroutines are not modelled here. *)
Class Platform : Type := {
  os_ReadFile : string -> gmap string string -> string + string;
  os_Create : string -> gmap string string -> option string;
  RunTUI : list string -> proc machine (list string)
}.

(** The command line after [flag.Parse()]. *)
Record flags : Type := Flags {
  filePath : string;
  tuiMode : bool;
  outPath : string;
  args : list string
}.

(** A console action, run on the machine. *)
Definition on_console {R : Type} (m : proc world R) : proc machine R :=
  fun st =>
    match m (console st) with
    | Returned r w => Returned r (Machine w (files st))
    | Exited c w => Exited c (Machine w (files st))
    | OutOfFuel => OutOfFuel
    end.

Section Program.
Context `{StringsPkg} `{Platform}.

(** The loop shared by the file and the argument branches of [main]:
    [x = strings.TrimSpace(x); if x != "" { items = append(items, x) }]. *)
Fixpoint keep_trimmed (xs : list string) (items : list string) : list string :=
  match xs with
  | [] => items
  | x :: rest =>
      let x := TrimSpace x in
      if decide (x = EmptyString) then keep_trimmed rest items
      else keep_trimmed rest (items ++ [x])
  end.

(** The prompt branch of [main]: one item per line until a blank line. *)
Fixpoint read_items_loop (fuel : nat) (items : list string) : proc world (list string) :=
  match fuel with
  | 0 => fun _ => OutOfFuel
  | S fuel' =>
      let* _ := Print "> " in
      let* r := ReadString in
      match r with
      | None =>
          let* _ := Fprint_stderr ("read error: EOF" ++ nl) in
          os_Exit 1
      | Some line =>
          let line := TrimSpace line in
          if decide (line = EmptyString) then ret items
          else read_items_loop fuel' (items ++ [line])
      end
  end.

(** A line (without its newline) that is taken as an item, and one that
    ends the entry of items. *)
Definition item_line (line : string) : bool :=
  one_line line && negb (bool_decide (TrimSpace (line +:+ nl) = EmptyString)).

Definition blank_line (line : string) : bool :=
  one_line line && bool_decide (TrimSpace (line +:+ nl) = EmptyString).

Definition read_items : proc world (list string) :=
  let* _ := Println "Enter items to sort, one per line. Submit an empty line when done:" in
  fun w => read_items_loop (S (String.length (stdin w))) [] w.

(** [for i, it := range sorted { fmt.Printf("%d. %s\n", i+1, it) }],
    from index [i] on. *)
Fixpoint print_ranking_from (i : nat) (sorted : list string) : proc world unit :=
  match sorted with
  | [] => ret tt
  | it :: rest =>
      let* _ := Print (ranking_line i it) in
      print_ranking_from (i + 1) rest
  end.

Definition print_ranking (sorted : list string) : proc world unit :=
  let* _ := Println (nl +:+ "Final ranking (best -> worst):") in
  print_ranking_from 0 sorted.

(** The loop of [writeResultToFile], filling the buffer of the writer. *)
Fixpoint write_ranking_from (i : nat) (sorted : list string) (buf : string) : string :=
  match sorted with
  | [] => buf
  | it :: rest => write_ranking_from (i + 1) rest (buf +:+ ranking_line i it)
  end.

(** [writeResultToFile]: the error of [os.Create], or the file created
    anew with the buffered lines flushed into it.  Writing to a file that
    was created is taken to succeed. *)
Definition writeResultToFile (sorted : list string) (path : string)
    : proc machine (option string) :=
  fun st =>
    match os_Create path (files st) with
    | Some err => Returned (Some err) st
    | None =>
        let text := write_ranking_from 0 sorted EmptyString in
        Returned None (Machine (console st) (<[path := text]> (files st)))
    end.

Definition fail {R : Type} (msg : string) : proc machine R :=
  let* _ := on_console (Fprint_stderr msg) in
  on_console (os_Exit 1).

(** The three ways of [main] to get its items. *)
Definition acquire (f : flags) : proc machine (list string) :=
  if decide (filePath f <> EmptyString) then
    fun st =>
      match os_ReadFile (filePath f) (files st) with
      | inl err => fail ("failed to read file: " +:+ err +:+ nl) st
      | inr data => Returned (keep_trimmed (Split_lines data) []) st
      end
  else if decide (0 < length (args f)) then ret (keep_trimmed (args f) [])
  else on_console read_items.

(** [if *outPath != "" { if err := writeResultToFile(...) ... }], with the
    wording of the message of the branch. *)
Definition write_out (f : flags) (sorted : list string) (what : string)
    : proc machine unit :=
  if decide (outPath f <> EmptyString) then
    let* err := writeResultToFile sorted (outPath f) in
    match err with
    | Some e => fail (what +:+ e +:+ nl)
    | None => ret tt
    end
  else ret tt.

(** [main], after the reader is set up and the flags are parsed. *)
Definition main (f : flags) : proc machine unit :=
  let* items := acquire f in
  if decide (length items = 0) then fail ("no items provided; exiting" +:+ nl)
  else if tuiMode f then
    let* sorted := RunTUI items in
    let* _ := on_console (print_ranking sorted) in
    write_out f sorted "failed to write output: "
  else
    let* _ := on_console (Print (nl +:+ "Got " +:+ show_nat (length items) +:+
                 " items. We'll ask pairwise questions to rank them." +:+ nl)) in
    let* _ := on_console (Println
                 ("On each prompt enter 1 or 2 to choose the item you prefer. Enter q to quit."
                  +:+ nl)) in
    let* sorted := on_console (interactiveMergeSort items) in
    let* _ := on_console (print_ranking sorted) in
    write_out f sorted "failed to write output file: ".

End Program.

(** A platform for the examples: files are read from and created in the
    map as it is, a missing file is an error, the empty path cannot be
    created, and the stand-in for [RunTUI] returns the items as given. *)
#[export] Instance example_platform : Platform := {|
  os_ReadFile path fs :=
    match fs !! path with
    | Some data => inr data
    | None => inl ("open " +:+ path +:+ ": no such file or directory")%string
    end;
  os_Create path fs :=
    if decide (path = EmptyString) then
      Some "open : no such file or directory"%string
    else None;
  RunTUI items := ret items
|}.

(** ** The Bubbletea model of [tui.go] *)

Module Tui.

(** A [chan bool] value: [None] is the nil channel, [Some c] the channel
    created by the [c]-th [make(chan bool)]. *)
Definition chan : Type := option nat.

Record compareRequest : Type := CompareRequest {
  A : string;
  B : string;
  Resp : chan
}.

Record model : Type := Model {
  compCh : nat;
  a : string;
  b : string;
  req : chan;
  status : string
}.

Inductive msg : Type :=
| cmpRequestMsg (r : compareRequest)
| KeyMsg (key : string)
| quitMsg
| WindowSizeMsg
| otherMsg.

Inductive cmd : Type :=
| cmdNil
| cmdQuit.

Definition initialModel (compCh : nat) : model :=
  Model compCh "" "" None "Waiting for first comparison...".

Definition Init (m : model) : cmd := cmdNil.

(** One send [ch <- v] performed by the UI loop. *)
Definition send : Type := (nat * bool)%type.

Definition key_in (key : string) (names : list string) : bool :=
  existsb (String.eqb key) names.

(** [model.Update]: the new model, the command, and the channel sends the
    call performed, in order. *)
Definition Update (m : model) (x : msg) : model * cmd * list send :=
  match x with
  | cmpRequestMsg r =>
      let m := Model (compCh m) (A r) (B r) (Resp r)
                 "Use ← / → (or h / l) to choose. Enter q to quit." in
      (m, Init m, [])
  | KeyMsg key =>
      if key_in key ["left"; "h"]%string then
        match req m with
        | Some ch =>
            (Model (compCh m) (a m) (b m) None "Sent choice: left", cmdNil, [(ch, true)])
        | None => (m, cmdNil, [])
        end
      else if key_in key ["right"; "l"]%string then
        match req m with
        | Some ch =>
            (Model (compCh m) (a m) (b m) None "Sent choice: right", cmdNil, [(ch, false)])
        | None => (m, cmdNil, [])
        end
      else if key_in key ["q"; "ctrl+c"]%string then (m, cmdQuit, [])
      else (m, cmdNil, [])
  | quitMsg => (m, cmdQuit, [])
  | WindowSizeMsg => (m, cmdNil, [])
  | otherMsg => (m, cmdNil, [])
  end.

(** The event loop: messages are handled one at a time until one of them
    yields [tea.Quit]; the sends of all handled messages are collected. *)
Fixpoint run_ui (m : model) (msgs : list msg) : model * list send :=
  match msgs with
  | [] => (m, [])
  | x :: rest =>
      let '(m', c, out) := Update m x in
      match c with
      | cmdQuit => (m', out)
      | cmdNil => let '(m'', out') := run_ui m' rest in (m'', out ++ out')
      end
  end.

(** How many booleans were sent on channel [c]. *)
Definition sends_on (c : nat) (out : list send) : nat :=
  length (filter (fun x => fst x = c) out).

(** How many of the messages are comparison requests whose reply slot is
    channel [c]. *)
Fixpoint requests_for (c : nat) (msgs : list msg) : nat :=
  match msgs with
  | [] => 0
  | cmpRequestMsg r :: rest =>
      (if decide (Resp r = Some c) then 1 else 0) + requests_for c rest
  | _ :: rest => requests_for c rest
  end.

(** The request pending in [m], counted for channel [c]. *)
Definition pending_on (c : nat) (m : model) : nat :=
  if decide (req m = Some c) then 1 else 0.

End Tui.

(** *** A session at the UI: requests, each followed by one key press *)

(** The reply a key gives, if it gives one. *)
Definition answer_of_key (key : string) : option bool :=
  if Tui.key_in key ["left"; "h"]%string then Some true
  else if Tui.key_in key ["right"; "l"]%string then Some false
  else None.

Definition quit_key (key : string) : bool :=
  Tui.key_in key ["q"; "ctrl+c"]%string.

Fixpoint session (turns : list (Tui.compareRequest * string)) : list Tui.msg :=
  match turns with
  | [] => []
  | (r, key) :: rest => Tui.cmpRequestMsg r :: Tui.KeyMsg key :: session rest
  end.

(** What the session should send: for each request with a channel whose
    key gives a reply, that reply on that channel. *)
Fixpoint session_replies (turns : list (Tui.compareRequest * string)) : list Tui.send :=
  match turns with
  | [] => []
  | (r, key) :: rest =>
      match Tui.Resp r, answer_of_key key with
      | Some ch, Some v => (ch, v) :: session_replies rest
      | _, _ => session_replies rest
      end
  end.

(** * Properties *)

(** ** Processes *)

Lemma bind_ext {St A B : Type} (m1 m2 : proc St A) (k1 k2 : A -> proc St B) s :
  m1 s = m2 s ->
  (forall x s', k1 x s' = k2 x s') ->
  bind m1 k1 s = bind m2 k2 s.
Proof.
  intros Hm Hk. unfold bind. rewrite Hm.
  destruct (m2 s); auto.
Qed.

Lemma omap_ext {St A B : Type} (f g : A -> B) (o : outcome St A) :
  (forall x, f x = g x) -> omap f o = omap g o.
Proof. intros E. destruct o; simpl; congruence. Qed.

Lemma omap_omap {St A B C : Type} (f : B -> C) (g : A -> B) (o : outcome St A) :
  omap f (omap g o) = omap (fun x => f (g x)) o.
Proof. now destruct o. Qed.

Lemma omap_id {St A : Type} (f : A -> A) (o : outcome St A) :
  (forall x, f x = x) -> omap f o = o.
Proof. intros E. destruct o; simpl; congruence. Qed.

(** ** The merge loop against the worded merge *)

Lemma copy_rest_drop turns xs i out :
  turns = length xs - i -> copy_rest turns xs i out = out ++ drop i xs.
Proof.
  revert i out. induction turns as [|n IH]; intros i out Hn; simpl.
  - rewrite drop_ge by lia. now rewrite app_nil_r.
  - destruct (lookup_lt_is_Some_2 xs i) as [x Hx]; [lia|].
    rewrite Hx, IH by lia.
    rewrite (drop_S _ _ _ Hx), Nat.add_1_r, <- app_assoc. reflexivity.
Qed.

Section EngineFacts.
Context {St : Type}.
Variable cmp : comparator St.

Lemma spec_merge_nil_l right s : spec_merge cmp [] right s = Returned right s.
Proof. now destruct right. Qed.

Lemma spec_merge_nil_r left s : spec_merge cmp left [] s = Returned left s.
Proof. now destruct left. Qed.

Lemma spec_merge_cons x left y right s :
  spec_merge cmp (x :: left) (y :: right) s =
  match cmp x y s with
  | Returned true s' => omap (cons x) (spec_merge cmp left (y :: right) s')
  | Returned false s' => omap (cons y) (spec_merge cmp (x :: left) right s')
  | Exited c s' => Exited c s'
  | OutOfFuel => OutOfFuel
  end.
Proof. reflexivity. Qed.

(** The loop invariant: from cursors [i], [j] and output [out], the
    three loops append the worded merge of the unread suffixes. *)
Lemma merge_loop_spec fuel left right i j out s :
  (length left - i) + (length right - j) <= fuel ->
  bind (merge_loop cmp fuel left right i j out)
    (fun r => let '(i, j, out) := r in
       ret (copy_rest (length right - j) right j
              (copy_rest (length left - i) left i out))) s
  = omap (app out) (spec_merge cmp (drop i left) (drop j right) s).
Proof.
  revert i j out s.
  induction fuel as [|fuel IH]; intros i j out s Hfuel.
  - unfold bind; simpl.
    destruct (left !! i) as [x|] eqn:Hi.
    + apply lookup_lt_Some in Hi as Hlt.
      destruct (right !! j) as [y|] eqn:Hj.
      * apply lookup_lt_Some in Hj. lia.
      * unfold ret. rewrite !copy_rest_drop by reflexivity.
        apply lookup_ge_None in Hj.
        rewrite (drop_ge right) by lia. rewrite spec_merge_nil_r. simpl.
        now rewrite app_nil_r.
    + unfold ret. rewrite !copy_rest_drop by reflexivity.
      apply lookup_ge_None in Hi.
      rewrite (drop_ge left) by lia. rewrite spec_merge_nil_l. simpl.
      now rewrite app_nil_r.
  - unfold bind at 1. simpl.
    destruct (left !! i) as [x|] eqn:Hi.
    + apply lookup_lt_Some in Hi as Hlt.
      destruct (right !! j) as [y|] eqn:Hj.
      * apply lookup_lt_Some in Hj as Hlt'.
        rewrite (drop_S _ _ _ Hi), (drop_S _ _ _ Hj), spec_merge_cons.
        destruct (cmp x y s) as [[|] s'| |]; try reflexivity.
        -- specialize (IH (i + 1) j (out ++ [x]) s').
           unfold bind in IH at 1. rewrite IH by lia.
           rewrite Nat.add_1_r, <- (drop_S _ _ _ Hj), omap_omap.
           apply omap_ext. intros l. now rewrite <- app_assoc.
        -- specialize (IH i (j + 1) (out ++ [y]) s').
           unfold bind in IH at 1. rewrite IH by lia.
           rewrite Nat.add_1_r, <- (drop_S _ _ _ Hi), omap_omap.
           apply omap_ext. intros l. now rewrite <- app_assoc.
      * unfold ret. rewrite !copy_rest_drop by reflexivity.
        apply lookup_ge_None in Hj.
        rewrite (drop_ge right) by lia. rewrite spec_merge_nil_r. simpl.
        now rewrite app_nil_r.
    + unfold ret. rewrite !copy_rest_drop by reflexivity.
      apply lookup_ge_None in Hi.
      rewrite (drop_ge left) by lia. rewrite spec_merge_nil_l. simpl.
      now rewrite app_nil_r.
Qed.

Lemma mergeWithCmp_spec left right s :
  mergeWithCmp cmp left right s = spec_merge cmp left right s.
Proof.
  unfold mergeWithCmp.
  pose proof (merge_loop_spec (length left + length right) left right 0 0 [] s) as E.
  rewrite !Nat.sub_0_r, !drop_0 in E.
  rewrite omap_id in E by reflexivity.
  rewrite <- E by lia.
  apply bind_ext; [reflexivity|].
  intros [[i j] out] s'. reflexivity.
Qed.

(** *** Fuel of the sort *)

Lemma mergeSort_fuel_enough f1 f2 items s :
  length items <= f1 -> length items <= f2 ->
  mergeSort_fuel cmp f1 items s = mergeSort_fuel cmp f2 items s.
Proof.
  revert f2 items s.
  induction f1 as [|f1 IH]; intros f2 items s H1 H2.
  - destruct f2; cbn [mergeSort_fuel];
      destruct (decide (length items <= 1)); auto; lia.
  - destruct f2 as [|f2]; cbn [mergeSort_fuel];
      destruct (decide (length items <= 1)); auto; try lia.
    assert (0 < length items / 2 < length items) as Hmid.
    { split; [apply Nat.div_str_pos; lia | apply Nat.div_lt; lia]. }
    apply bind_ext.
    + apply IH; rewrite length_take; lia.
    + intros l s'. apply bind_ext; [|reflexivity].
      apply IH; rewrite length_drop; lia.
Qed.

Lemma mergeSortWithCmp_small items s :
  length items <= 1 -> mergeSortWithCmp cmp items s = Returned items s.
Proof.
  intros Hs. unfold mergeSortWithCmp.
  destruct (length items) as [|n] eqn:E; cbn [mergeSort_fuel]; rewrite E;
    destruct (decide _); auto; lia.
Qed.

Lemma mergeSortWithCmp_unfold items s :
  1 < length items ->
  mergeSortWithCmp cmp items s =
  (let* left := mergeSortWithCmp cmp (take (length items / 2) items) in
   let* right := mergeSortWithCmp cmp (drop (length items / 2) items) in
   spec_merge cmp left right) s.
Proof.
  intros Hbig. unfold mergeSortWithCmp at 1.
  destruct (length items) as [|n] eqn:E; [lia|].
  cbn [mergeSort_fuel]. rewrite E. destruct (decide (S n <= 1)); [lia|].
  assert (0 < S n / 2 < S n) as Hmid.
  { split; [apply Nat.div_str_pos; lia | apply Nat.div_lt; lia]. }
  apply bind_ext.
  - apply mergeSort_fuel_enough; rewrite length_take; lia.
  - intros l s'. apply bind_ext.
    + apply mergeSort_fuel_enough; rewrite length_drop; lia.
    + intros r s''. apply mergeWithCmp_spec.
Qed.

(** *** Induction along a merge, and along a sort, that returned *)

Lemma spec_merge_cons_inv x left y right s out s' :
  spec_merge cmp (x :: left) (y :: right) s = Returned out s' ->
  (exists s1 o, cmp x y s = Returned true s1 /\
      spec_merge cmp left (y :: right) s1 = Returned o s' /\ out = x :: o) \/
  (exists s1 o, cmp x y s = Returned false s1 /\
      spec_merge cmp (x :: left) right s1 = Returned o s' /\ out = y :: o).
Proof.
  rewrite spec_merge_cons.
  destruct (cmp x y s) as [[|] s1| |]; try discriminate.
  - destruct (spec_merge cmp left (y :: right) s1) as [o s2| |] eqn:M;
      simpl; intros E; inversion E; subst. left. eauto.
  - destruct (spec_merge cmp (x :: left) right s1) as [o s2| |] eqn:M;
      simpl; intros E; inversion E; subst. right. eauto.
Qed.

Lemma merge_returned_ind
    (P : list string -> list string -> St -> list string -> St -> Prop) :
  (forall right s, P [] right s right s) ->
  (forall left s, P left [] s left s) ->
  (forall x left y right s s1 o s',
      cmp x y s = Returned true s1 ->
      spec_merge cmp left (y :: right) s1 = Returned o s' ->
      P left (y :: right) s1 o s' ->
      P (x :: left) (y :: right) s (x :: o) s') ->
  (forall x left y right s s1 o s',
      cmp x y s = Returned false s1 ->
      spec_merge cmp (x :: left) right s1 = Returned o s' ->
      P (x :: left) right s1 o s' ->
      P (x :: left) (y :: right) s (y :: o) s') ->
  forall left right s out s',
    spec_merge cmp left right s = Returned out s' -> P left right s out s'.
Proof.
  intros Hnl Hnr Ht Hf left.
  induction left as [|x left IHl]; intros right.
  - intros s out s' E. rewrite spec_merge_nil_l in E. inversion E; subst. apply Hnl.
  - induction right as [|y right IHr]; intros s out s' E.
    + rewrite spec_merge_nil_r in E. inversion E; subst. apply Hnr.
    + apply spec_merge_cons_inv in E as [(s1 & o & C & M & ->)|(s1 & o & C & M & ->)].
      * eapply Ht; eauto.
      * eapply Hf; eauto.
Qed.

Lemma sort_returned_ind (P : list string -> St -> list string -> St -> Prop) :
  (forall items s, length items <= 1 -> P items s items s) ->
  (forall items s left s1 right s2 out s',
      1 < length items ->
      mergeSortWithCmp cmp (take (length items / 2) items) s = Returned left s1 ->
      P (take (length items / 2) items) s left s1 ->
      mergeSortWithCmp cmp (drop (length items / 2) items) s1 = Returned right s2 ->
      P (drop (length items / 2) items) s1 right s2 ->
      spec_merge cmp left right s2 = Returned out s' ->
      P items s out s') ->
  forall items s out s',
    mergeSortWithCmp cmp items s = Returned out s' -> P items s out s'.
Proof.
  intros Hsmall Hbig items.
  remember (length items) as n eqn:Hn.
  assert (length items <= n) as Hle by lia. clear Hn.
  revert items Hle.
  induction n as [|n IH']; intros items Hle s out s' E.
  { rewrite mergeSortWithCmp_small in E by lia.
    inversion E; subst. apply Hsmall. lia. }
  destruct (decide (length items <= 1)) as [Hs|Hs].
  - rewrite mergeSortWithCmp_small in E by assumption.
    inversion E; subst. now apply Hsmall.
  - rewrite mergeSortWithCmp_unfold in E by lia. unfold bind in E.
    assert (0 < length items / 2 < length items) as Hmid.
    { split; [apply Nat.div_str_pos; lia | apply Nat.div_lt; lia]. }
    destruct (mergeSortWithCmp cmp (take _ items) s) as [l s1| |] eqn:E1;
      try discriminate.
    destruct (mergeSortWithCmp cmp (drop _ items) s1) as [r s2| |] eqn:E2;
      try discriminate.
    eapply Hbig; eauto; try lia.
    + eapply IH'; eauto. rewrite length_take. lia.
    + eapply IH'; eauto. rewrite length_drop. lia.
Qed.

(** *** A comparator that always answers makes the engine return *)

Lemma spec_merge_returns left right s :
  answers cmp -> exists out s', spec_merge cmp left right s = Returned out s'.
Proof.
  intros Hc. revert right s.
  induction left as [|x left IHl]; intros right.
  - intros s. rewrite spec_merge_nil_l. eauto.
  - induction right as [|y right IHr]; intros s.
    + rewrite spec_merge_nil_r. eauto.
    + rewrite spec_merge_cons.
      destruct (Hc x y s) as ([|] & s1 & ->).
      * destruct (IHl (y :: right) s1) as (o & s2 & ->). simpl. eauto.
      * destruct (IHr s1) as (o & s2 & ->). simpl. eauto.
Qed.

Lemma mergeSortWithCmp_returns items s :
  answers cmp -> exists out s', mergeSortWithCmp cmp items s = Returned out s'.
Proof.
  intros Hc.
  remember (length items) as n eqn:Hn.
  assert (length items <= n) as Hle by lia. clear Hn.
  revert items Hle s.
  induction n as [|n IH]; intros items Hle s.
  { rewrite mergeSortWithCmp_small by lia. eauto. }
  destruct (decide (length items <= 1)) as [Hs|Hs].
  - rewrite mergeSortWithCmp_small by lia. eauto.
  - rewrite mergeSortWithCmp_unfold by lia. unfold bind.
    assert (0 < length items / 2 < length items) as Hmid.
    { split; [apply Nat.div_str_pos; lia | apply Nat.div_lt; lia]. }
    destruct (IH (take (length items / 2) items)) with (s := s)
      as (l & s1 & ->); [rewrite length_take; lia|].
    destruct (IH (drop (length items / 2) items)) with (s := s1)
      as (r & s2 & ->); [rewrite length_drop; lia|].
    now apply spec_merge_returns.
Qed.

End EngineFacts.

(** ** Nothing is lost and each half keeps its order *)

Section Ranking.
Context {St : Type}.
Variable cmp : comparator St.

Lemma spec_merge_perm left right s out s' :
  spec_merge cmp left right s = Returned out s' -> left ++ right ≡ₚ out.
Proof.
  revert left right s out s'. apply merge_returned_ind.
  - reflexivity.
  - intros left s0. now rewrite app_nil_r.
  - intros x left y right s0 s1 o s2 C M IH. simpl. now constructor.
  - intros x left y right s0 s1 o s2 C M IH.
    rewrite <- IH. symmetry. apply Permutation_middle.
Qed.

Lemma mergeSortWithCmp_perm items s out s' :
  mergeSortWithCmp cmp items s = Returned out s' -> items ≡ₚ out.
Proof.
  revert items s out s'. apply sort_returned_ind.
  - reflexivity.
  - intros items s0 left s1 right s2 out s3 Hbig El IHl Er IHr M.
    apply spec_merge_perm in M.
    rewrite <- (take_drop (length items / 2) items) at 1.
    now rewrite IHl, IHr.
Qed.

Lemma spec_merge_sublist left right s out s' :
  spec_merge cmp left right s = Returned out s' ->
  left `sublist_of` out /\ right `sublist_of` out.
Proof.
  revert left right s out s'. apply merge_returned_ind.
  - intros right s0. split; [apply sublist_nil_l | reflexivity].
  - intros left s0. split; [reflexivity | apply sublist_nil_l].
  - intros x left y right s0 s1 o s2 C M [IHl IHr].
    split; [now apply sublist_skip | now apply sublist_cons].
  - intros x left y right s0 s1 o s2 C M [IHl IHr].
    split; [now apply sublist_cons | now apply sublist_skip].
Qed.

End Ranking.

(** ** The console engine is the comparator engine *)

Section ConsoleEngine.
Context `{StringsPkg}.

Lemma interactive_merge_loop_engine fuel left right i j out w :
  interactive_merge_loop fuel left right i j out w =
  merge_loop askPreference fuel left right i j out w.
Proof.
  revert i j out w. induction fuel as [|fuel IH]; intros i j out w; simpl.
  - reflexivity.
  - destruct (left !! i) as [x|]; [|reflexivity].
    destruct (right !! j) as [y|]; [|reflexivity].
    destruct (askPreference x y w) as [[|] w'| |]; auto.
Qed.

Lemma interactiveMerge_engine left right w :
  interactiveMerge left right w = mergeWithCmp askPreference left right w.
Proof.
  unfold interactiveMerge, mergeWithCmp.
  apply bind_ext; [apply interactive_merge_loop_engine | reflexivity].
Qed.

Lemma interactiveMergeSort_fuel_engine fuel items w :
  interactiveMergeSort_fuel fuel items w =
  mergeSort_fuel askPreference fuel items w.
Proof.
  revert items w. induction fuel as [|fuel IH]; intros items w;
    cbn [interactiveMergeSort_fuel mergeSort_fuel];
    destruct (decide (length items <= 1)); reflexivity.
Qed.

Lemma interactiveMergeSort_engine items w :
  interactiveMergeSort items w = mergeSortWithCmp askPreference items w.
Proof. apply interactiveMergeSort_fuel_engine. Qed.

End ConsoleEngine.

(** ** The console oracle, one line at a time *)

Lemma split_line_shorter s line rest :
  split_line s = Some (line, rest) -> String.length rest < String.length s.
Proof.
  revert line. induction s as [|c s IH]; intros line; simpl; [discriminate|].
  destruct (Ascii.eqb c (ascii_of_nat 10)).
  - intros E. inversion E; subst. lia.
  - destruct (split_line s) as [[l r]|]; [|discriminate].
    intros E. inversion E; subst. specialize (IH l eq_refl). lia.
Qed.

Lemma split_line_one_line line rest :
  one_line line = true ->
  split_line (line ++ nl ++ rest) = Some ((line ++ nl)%string, rest).
Proof.
  induction line as [|c line IH]; simpl; [reflexivity|].
  intros Hl. apply andb_prop in Hl as [Hc Hl].
  apply negb_true_iff in Hc. rewrite Hc.
  fold (nl ++ rest)%string. now rewrite (IH Hl).
Qed.

Section ConsoleOracle.
Context `{StringsPkg}.

Lemma askPreference_loop_S fuel a b w :
  askPreference_loop (S fuel) a b w = ask_turn (askPreference_loop fuel) a b w.
Proof.
  unfold ask_turn. cbn [askPreference_loop].
  unfold bind, Println, Print, ReadString, Fprint_stderr, os_Exit, ret, prompt.
  cbn [stdin stdout stderr].
  destruct (split_line (stdin w)) as [[line rest]|].
  - repeat case_bool_decide; cbn [stdin stdout stderr];
      rewrite <- !app_assoc; reflexivity.
  - rewrite <- !app_assoc. reflexivity.
Qed.

Lemma askPreference_loop_enough f1 f2 a b w :
  String.length (stdin w) < f1 -> String.length (stdin w) < f2 ->
  askPreference_loop f1 a b w = askPreference_loop f2 a b w.
Proof.
  revert f2 w. induction f1 as [|f1 IH]; intros f2 w H1 H2; [lia|].
  destruct f2 as [|f2]; [lia|].
  rewrite !askPreference_loop_S. unfold ask_turn.
  destruct (split_line (stdin w)) as [[line rest]|] eqn:E; [|reflexivity].
  apply split_line_shorter in E.
  repeat (case_bool_decide; [reflexivity|]).
  apply IH; simpl; lia.
Qed.

Lemma askPreference_turn a b w :
  askPreference a b w = ask_turn askPreference a b w.
Proof.
  unfold askPreference at 1. rewrite askPreference_loop_S. unfold ask_turn.
  destruct (split_line (stdin w)) as [[line rest]|] eqn:E; [|reflexivity].
  apply split_line_shorter in E.
  repeat (case_bool_decide; [reflexivity|]).
  unfold askPreference. apply askPreference_loop_enough; simpl; lia.
Qed.

(** The oracle never runs out of turns: the input is finite and every
    turn reads a line of it. *)
Lemma askPreference_loop_fueled fuel a b w :
  String.length (stdin w) < fuel -> askPreference_loop fuel a b w <> OutOfFuel.
Proof.
  revert w. induction fuel as [|fuel IH]; intros w Hf; [lia|].
  rewrite askPreference_loop_S. unfold ask_turn.
  destruct (split_line (stdin w)) as [[line rest]|] eqn:E; [|discriminate].
  apply split_line_shorter in E.
  repeat (case_bool_decide; [discriminate|]).
  apply IH. simpl. lia.
Qed.

Lemma askPreference_fueled a b w : askPreference a b w <> OutOfFuel.
Proof. apply askPreference_loop_fueled. lia. Qed.

End ConsoleOracle.

Section ConsoleProtocol.
Context `{StringsPkg}.

Lemma askPreference_rejected a b line rest o e :
  rejected line = true ->
  askPreference a b (World (feed [line] rest) o e) =
  askPreference a b (World rest (o ++ retries 1 a b) e).
Proof.
  unfold rejected, recognised. intros Hr. apply andb_prop in Hr as [Hl Hk].
  apply negb_true_iff, bool_decide_eq_false in Hk.
  rewrite askPreference_turn. unfold ask_turn, feed. cbn [foldr stdin stdout stderr].
  rewrite (split_line_one_line _ _ Hl).
  rewrite !elem_of_cons in Hk.
  repeat (case_bool_decide as Hc; [tauto|]; clear Hc).
  unfold retries. cbn [replicate concat]. now rewrite app_nil_r, <- app_assoc.
Qed.

Lemma askPreference_retries a b bad rest o e :
  forallb rejected bad = true ->
  askPreference a b (World (feed bad rest) o e) =
  askPreference a b (World rest (o ++ retries (length bad) a b) e).
Proof.
  revert o. induction bad as [|line bad IH]; intros o Hbad.
  - unfold retries. simpl. now rewrite app_nil_r.
  - cbn [forallb] in Hbad. apply andb_prop in Hbad as [Hl Hbad].
    change (feed (line :: bad) rest) with (feed [line] (feed bad rest)).
    rewrite (askPreference_rejected _ _ _ _ _ _ Hl), (IH _ Hbad).
    unfold retries. cbn [length replicate concat].
    now rewrite app_nil_r, <- !app_assoc.
Qed.

End ConsoleProtocol.

(** ** The UI loop answers a request once *)

Lemma requests_for_cons c x msgs :
  Tui.requests_for c (x :: msgs) = Tui.requests_for c [x] + Tui.requests_for c msgs.
Proof. destruct x; simpl; lia. Qed.

(** Each step spends the pending request to send, or sends nothing; only
    an arriving request makes a channel pending. *)
Lemma Update_budget c m x :
  let '(m', _, out) := Tui.Update m x in
  Tui.sends_on c out + Tui.pending_on c m' <=
  Tui.pending_on c m + Tui.requests_for c [x].
Proof.
  unfold Tui.sends_on, Tui.pending_on.
  destruct x as [r|key| | |]; cbn [Tui.Update Tui.requests_for Tui.Init];
    rewrite ?filter_nil; cbn [length Tui.req]; try lia.
  destruct (Tui.req m) as [ch|] eqn:E;
    repeat match goal with
           | |- context [if Tui.key_in ?k ?l then _ else _] =>
               destruct (Tui.key_in k l)
           end;
    rewrite ?filter_cons, ?filter_nil; cbn [fst Tui.req]; rewrite ?E;
    repeat case_decide; simpl; try lia; congruence.
Qed.

Lemma run_ui_sends c msgs m :
  Tui.sends_on c (snd (Tui.run_ui m msgs)) <=
  Tui.pending_on c m + Tui.requests_for c msgs.
Proof.
  revert m. induction msgs as [|x msgs IH]; intros m.
  - simpl. unfold Tui.sends_on. simpl. lia.
  - rewrite requests_for_cons. cbn [Tui.run_ui].
    pose proof (Update_budget c m x) as Hu.
    destruct (Tui.Update m x) as [[m' k] out]. cbn beta iota in Hu.
    destruct k.
    + specialize (IH m'). destruct (Tui.run_ui m' msgs) as [m'' out'].
      cbn [snd] in *. unfold Tui.sends_on in *.
      rewrite filter_app, length_app. unfold Tui.send in *. lia.
    + cbn [snd]. lia.
Qed.

(** ** Comparators that answer, and the engine's own fuel *)

Lemma of_fun_answers {St : Type} (c : string -> string -> St -> bool * St) :
  answers (of_fun c).
Proof. intros x y s. unfold of_fun. destruct (c x y s) as [b s']. eauto. Qed.


Lemma pure_cmp_implements f : implements (pure_cmp f) f.
Proof. intros x y s. unfold pure_cmp. eauto. Qed.

Lemma traced_answers {St : Type} (cmp : comparator St) :
  answers cmp -> answers (traced cmp).
Proof.
  intros Hc x y [s log]. unfold traced. cbn [fst snd].
  destruct (Hc x y s) as (b & s' & ->). eauto.
Qed.

Lemma traced_returned {St : Type} (cmp : comparator St) x y sl b sl' :
  traced cmp x y sl = Returned b sl' ->
  cmp x y (fst sl) = Returned b (fst sl') /\ snd sl' = snd sl ++ [(x, y, b)].
Proof.
  unfold traced. destruct (cmp x y (fst sl)) as [b' s'| |]; try discriminate.
  intros E. inversion E; subst. auto.
Qed.

Section Fuel.
Context {St : Type}.
Variable cmp : comparator St.
Hypothesis cmp_fueled : forall x y s, cmp x y s <> OutOfFuel.

Lemma spec_merge_fueled left right s : spec_merge cmp left right s <> OutOfFuel.
Proof.
  revert right s. induction left as [|x left IHl]; intros right.
  - intros s. now rewrite spec_merge_nil_l.
  - induction right as [|y right IHr]; intros s.
    + now rewrite spec_merge_nil_r.
    + rewrite spec_merge_cons. specialize (cmp_fueled x y s).
      destruct (cmp x y s) as [[|] s1| |]; try easy.
      * specialize (IHl (y :: right) s1).
        now destruct (spec_merge cmp left (y :: right) s1).
      * specialize (IHr s1).
        now destruct (spec_merge cmp (x :: left) right s1).
Qed.

Lemma mergeSortWithCmp_fueled items s : mergeSortWithCmp cmp items s <> OutOfFuel.
Proof.
  remember (length items) as n eqn:Hn.
  assert (length items <= n) as Hle by lia. clear Hn.
  revert items Hle s.
  induction n as [|n IH]; intros items Hle s.
  { now rewrite mergeSortWithCmp_small by lia. }
  destruct (decide (length items <= 1)) as [Hs|Hs].
  - now rewrite mergeSortWithCmp_small by lia.
  - rewrite mergeSortWithCmp_unfold by lia. unfold bind.
    assert (0 < length items / 2 < length items) as Hmid.
    { split; [apply Nat.div_str_pos; lia | apply Nat.div_lt; lia]. }
    destruct (mergeSortWithCmp cmp (take _ items) s) as [l s1| |] eqn:El;
      try easy.
    + destruct (mergeSortWithCmp cmp (drop _ items) s1) as [r s2| |] eqn:Er;
        try easy.
      * apply spec_merge_fueled.
      * exfalso. eapply IH; [|exact Er]. rewrite length_drop; lia.
    + exfalso. eapply IH; [|exact El]. rewrite length_take; lia.
Qed.

End Fuel.

(** ** Counting the calls of the comparator *)

Lemma log2_up_upper_half n :
  2 <= n -> Nat.log2_up (n - n / 2) < Nat.log2_up n.
Proof.
  intros Hn.
  pose proof (Nat.log2_up_spec n ltac:(lia)) as [_ Hup].
  pose proof (Nat.log2_up_pos n ltac:(lia)) as Hpos.
  destruct (Nat.log2_up n) as [|L] eqn:EL; [lia|].
  rewrite Nat.pow_succ_r' in Hup.
  pose proof (Nat.div_mod_eq n 2) as Hd.
  pose proof (Nat.mod_upper_bound n 2 ltac:(lia)) as Hm.
  assert (n - n / 2 <= 2 ^ L) as Hle by lia.
  apply Nat.log2_up_le_pow2 in Hle; lia.
Qed.

Lemma merge_sort_recurrence n ka kb km :
  2 <= n ->
  n / 2 - 1 <= ka <= n / 2 * Nat.log2_up (n / 2) ->
  (n - n / 2) - 1 <= kb <= (n - n / 2) * Nat.log2_up (n - n / 2) ->
  Nat.min (n / 2) (n - n / 2) <= km <= n / 2 + (n - n / 2) - 1 ->
  n - 1 <= ka + kb + km <= n * Nat.log2_up n.
Proof.
  intros Hn Ha Hb Hm.
  pose proof (log2_up_upper_half n Hn) as Hup.
  assert (0 < n / 2 <= n - n / 2) as Hhalf.
  { pose proof (Nat.div_mod_eq n 2). pose proof (Nat.mod_upper_bound n 2 ltac:(lia)).
    split; [apply Nat.div_str_pos; lia | lia]. }
  assert (Nat.log2_up (n / 2) <= Nat.log2_up (n - n / 2)) as Hmono
    by (apply Nat.log2_up_le_mono; lia).
  set (a := n / 2) in *. set (b := n - a) in *.
  set (L := Nat.log2_up n) in *.
  assert (a * Nat.log2_up a <= a * (L - 1)) by (apply Nat.mul_le_mono_l; lia).
  assert (b * Nat.log2_up b <= b * (L - 1)) by (apply Nat.mul_le_mono_l; lia).
  assert (n = a + b) as Hsum by (subst b; lia).
  clearbody a b L. subst n.
  split; [lia|]. nia.
Qed.

Section Counting.
Context {St : Type}.
Variable cmp : comparator St.

Lemma traced_merge_calls left right sl out sl' :
  spec_merge (traced cmp) left right sl = Returned out sl' ->
  exists k, snd sl' = snd sl ++ k /\
    Nat.min (length left) (length right) <= length k <= length left + length right - 1.
Proof.
  revert left right sl out sl'. apply merge_returned_ind.
  - intros right sl. exists []. rewrite app_nil_r. simpl. split; [reflexivity|lia].
  - intros left sl. exists []. rewrite app_nil_r. simpl. split; [reflexivity|lia].
  - intros x left y right sl sl1 o sl' C M (k & Hk & Hb).
    apply traced_returned in C as [_ Hlog].
    exists ((x, y, true) :: k). rewrite Hk, Hlog, <- app_assoc.
    split; [reflexivity|]. cbn [length] in *. lia.
  - intros x left y right sl sl1 o sl' C M (k & Hk & Hb).
    apply traced_returned in C as [_ Hlog].
    exists ((x, y, false) :: k). rewrite Hk, Hlog, <- app_assoc.
    split; [reflexivity|]. cbn [length] in *. lia.
Qed.

Lemma traced_sort_calls items sl out sl' :
  mergeSortWithCmp (traced cmp) items sl = Returned out sl' ->
  exists k, snd sl' = snd sl ++ k /\
    length items - 1 <= length k <= length items * Nat.log2_up (length items).
Proof.
  revert items sl out sl'. apply sort_returned_ind.
  - intros items sl Hs. exists []. rewrite app_nil_r. simpl.
    split; [reflexivity|lia].
  - intros items sl l sl1 r sl2 out sl' Hbig El (ka & Hka & Ba) Er (kb & Hkb & Bb) M.
    apply traced_merge_calls in M as (km & Hkm & Bm).
    apply mergeSortWithCmp_perm, Permutation_length in El, Er.
    assert (length items / 2 < length items) as Hmid by (apply Nat.div_lt; lia).
    rewrite length_take in El, Ba. rewrite length_drop in Er, Bb.
    rewrite Nat.min_l in El, Ba by lia. rewrite <- El, <- Er in Bm.
    exists (ka ++ kb ++ km). rewrite Hkm, Hkb, Hka, <- !app_assoc.
    split; [reflexivity|]. rewrite !length_app, Nat.add_assoc.
    apply merge_sort_recurrence; auto; lia.
Qed.

End Counting.

(** ** The test double does not disturb the run *)

Section Forget.
Context {St : Type}.
Variable cmp : comparator St.

Lemma forget_omap {A B : Type} (f : A -> B) (o : outcome (St * list call) A) :
  forget (omap f o) = omap f (forget o).
Proof. now destruct o. Qed.

Lemma forget_traced x y sl : forget (traced cmp x y sl) = cmp x y (fst sl).
Proof. unfold traced. now destruct (cmp x y (fst sl)). Qed.

Lemma forget_merge left right sl :
  forget (spec_merge (traced cmp) left right sl) = spec_merge cmp left right (fst sl).
Proof.
  revert right sl. induction left as [|x left IHl]; intros right.
  - intros sl. now rewrite !spec_merge_nil_l.
  - induction right as [|y right IHr]; intros sl.
    + now rewrite !spec_merge_nil_r.
    + rewrite !spec_merge_cons, <- forget_traced.
      destruct (traced cmp x y sl) as [[|] sl1| |]; try reflexivity; cbn [forget].
      * now rewrite forget_omap, IHl.
      * now rewrite forget_omap, IHr.
Qed.

Lemma forget_sort items sl :
  forget (mergeSortWithCmp (traced cmp) items sl) = mergeSortWithCmp cmp items (fst sl).
Proof.
  remember (length items) as n eqn:Hn.
  assert (length items <= n) as Hle by lia. clear Hn.
  revert items Hle sl.
  induction n as [|n IH]; intros items Hle sl.
  { now rewrite !mergeSortWithCmp_small by lia. }
  destruct (decide (length items <= 1)) as [Hs|Hs].
  - now rewrite !mergeSortWithCmp_small by lia.
  - rewrite !mergeSortWithCmp_unfold by lia. unfold bind.
    assert (0 < length items / 2 < length items) as Hmid.
    { split; [apply Nat.div_str_pos; lia | apply Nat.div_lt; lia]. }
    rewrite <- (IH (take (length items / 2) items)) by (rewrite length_take; lia).
    destruct (mergeSortWithCmp (traced cmp) (take _ items) sl) as [l sl1| |];
      try reflexivity; cbn [forget].
    rewrite <- (IH (drop (length items / 2) items)) by (rewrite length_drop; lia).
    destruct (mergeSortWithCmp (traced cmp) (drop _ items) sl1) as [r sl2| |];
      try reflexivity; cbn [forget].
    apply forget_merge.
Qed.

End Forget.

(** ** Replaying recorded replies at the console *)

Section Replay.
Context `{StringsPkg}.
Hypothesis one_is_one : ToLower (TrimSpace ("1" +:+ nl)) = "1"%string.
Hypothesis two_is_two : ToLower (TrimSpace ("2" +:+ nl)) = "2"%string.

Lemma askPreference_answer x y b rest o e :
  askPreference x y (World (feed [answer_line b] rest) o e) =
  Returned b (World rest (o ++ prompt x y) e).
Proof.
  rewrite askPreference_turn. unfold ask_turn, feed.
  cbn [foldr stdin stdout stderr].
  rewrite split_line_one_line by now destruct b.
  destruct b; cbn [answer_line].
  - rewrite one_is_one. reflexivity.
  - rewrite two_is_two. reflexivity.
Qed.

Lemma traced_askPreference_answer x y b rest o e l0 :
  traced askPreference x y (World (feed [answer_line b] rest) o e, l0) =
  Returned b (World rest (o ++ prompt x y) e, l0 ++ [(x, y, b)]).
Proof. unfold traced. cbn [fst snd]. now rewrite askPreference_answer. Qed.

Context {St : Type}.
Variable cmp : comparator St.

Lemma replay_merge left right sl out sl' :
  spec_merge (traced cmp) left right sl = Returned out sl' ->
  exists k, snd sl' = snd sl ++ k /\
    forall rest o e l0,
      spec_merge (traced askPreference) left right
        (World (feed (answer_lines k) rest) o e, l0) =
      Returned out (World rest (o ++ prompts k) e, l0 ++ k).
Proof.
  revert left right sl out sl'. apply merge_returned_ind.
  - intros right sl. exists []. rewrite app_nil_r. split; [reflexivity|].
    intros rest o e l0. rewrite spec_merge_nil_l. simpl. now rewrite !app_nil_r.
  - intros left sl. exists []. rewrite app_nil_r. split; [reflexivity|].
    intros rest o e l0. rewrite spec_merge_nil_r. simpl. now rewrite !app_nil_r.
  - intros x left y right sl sl1 out sl' C M (k & Hk & IH).
    apply traced_returned in C as [_ Hlog].
    exists ((x, y, true) :: k). rewrite Hk, Hlog, <- app_assoc.
    split; [reflexivity|]. intros rest o e l0.
    rewrite spec_merge_cons.
    change (feed (answer_lines ((x, y, true) :: k)) rest)
      with (feed [answer_line true] (feed (answer_lines k) rest)).
    rewrite traced_askPreference_answer, IH. simpl.
    unfold prompts. cbn [map concat fst snd]. now rewrite <- !app_assoc.
  - intros x left y right sl sl1 out sl' C M (k & Hk & IH).
    apply traced_returned in C as [_ Hlog].
    exists ((x, y, false) :: k). rewrite Hk, Hlog, <- app_assoc.
    split; [reflexivity|]. intros rest o e l0.
    rewrite spec_merge_cons.
    change (feed (answer_lines ((x, y, false) :: k)) rest)
      with (feed [answer_line false] (feed (answer_lines k) rest)).
    rewrite traced_askPreference_answer, IH. simpl.
    unfold prompts. cbn [map concat fst snd]. now rewrite <- !app_assoc.
Qed.

Lemma feed_app l1 l2 rest : feed (l1 ++ l2) rest = feed l1 (feed l2 rest).
Proof. unfold feed. apply foldr_app. Qed.

Lemma replay_sort items sl out sl' :
  mergeSortWithCmp (traced cmp) items sl = Returned out sl' ->
  exists k, snd sl' = snd sl ++ k /\
    forall rest o e l0,
      mergeSortWithCmp (traced askPreference) items
        (World (feed (answer_lines k) rest) o e, l0) =
      Returned out (World rest (o ++ prompts k) e, l0 ++ k).
Proof.
  revert items sl out sl'. apply sort_returned_ind.
  - intros items sl Hs. exists []. rewrite app_nil_r. split; [reflexivity|].
    intros rest o e l0. rewrite mergeSortWithCmp_small by assumption.
    simpl. now rewrite !app_nil_r.
  - intros items sl l sl1 r sl2 out sl' Hbig El (ka & Hka & IHa) Er (kb & Hkb & IHb) M.
    apply replay_merge in M as (km & Hkm & IHm).
    exists (ka ++ kb ++ km). rewrite Hkm, Hkb, Hka, <- !app_assoc.
    split; [reflexivity|]. intros rest o e l0.
    rewrite mergeSortWithCmp_unfold by assumption. unfold bind.
    unfold answer_lines, prompts. rewrite !map_app, !feed_app, !concat_app.
    fold (answer_lines ka) (answer_lines kb) (answer_lines km).
    fold (prompts ka) (prompts kb) (prompts km).
    rewrite IHa, IHb, IHm. now rewrite <- !app_assoc.
Qed.

End Replay.

(** ** Oracles that follow a strict total order *)

Lemma alphabetical_strict_total_order : strict_total_order String.ltb.
Proof.
  split; unfold String.ltb.
  - intros x. pose proof (proj2 (String_as_OT.cmp_eq x x) eq_refl) as E.
    unfold String_as_OT.cmp in E. now rewrite E.
  - intros x y z Hxy Hyz.
    destruct (String.compare x y) eqn:Exy; try discriminate.
    destruct (String.compare y z) eqn:Eyz; try discriminate.
    apply String_as_OT.cmp_lt in Exy, Eyz.
    pose proof (String_as_OT.lt_trans _ _ _ Exy Eyz) as Hxz.
    apply String_as_OT.cmp_lt in Hxz. unfold String_as_OT.cmp in Hxz.
    now rewrite Hxz.
  - intros x y Hne. rewrite (String.compare_antisym y x).
    destruct (String.compare x y) eqn:Exy; simpl; auto.
    apply String_as_OT.cmp_eq in Exy. contradiction.
Qed.

(** Filtering out the copies of one item gives the same list on two
    arrangements of the same items. *)
Lemma filter_only_perm (P : string -> Prop) `{!forall y, Decision (P y)}
    (x : string) (l1 l2 : list string) :
  (forall y, P y <-> y = x) -> l1 ≡ₚ l2 -> filter P l1 = filter P l2.
Proof.
  intros HP Hp.
  assert (forall l : list string,
    filter P l = replicate (length (filter P l)) x) as Hrep.
  { intros l. symmetry. apply replicate_as_Forall. split; [reflexivity|].
    apply Forall_forall. intros y Hy. apply list_elem_of_filter in Hy as [Hy _].
    symmetry. now apply HP. }
  rewrite (Hrep l1), (Hrep l2). f_equal.
  apply Permutation_length. now rewrite Hp.
Qed.

Section Ordered.
Variable prefers : string -> string -> bool.
Hypothesis order : strict_total_order prefers.

Lemma prefers_asym x y : prefers x y = true -> prefers y x = false.
Proof.
  intros Hxy. destruct (prefers y x) eqn:Hyx; [|reflexivity].
  pose proof (sto_trans _ order _ _ _ Hxy Hyx) as Hxx.
  rewrite (sto_irrefl _ order) in Hxx. discriminate.
Qed.

Lemma not_below_trans x y z :
  prefers y x = false -> prefers z y = false -> prefers z x = false.
Proof.
  intros Hyx Hzy. destruct (prefers z x) eqn:Hzx; [|reflexivity].
  destruct (decide (x = y)) as [->|Hne]; [congruence|].
  destruct (sto_total _ order x y Hne) as [Hxy|Hxy]; [|congruence].
  pose proof (sto_trans _ order _ _ _ Hzx Hxy). congruence.
Qed.

Lemma tied_is_equal x y :
  prefers x y = false /\ prefers y x = false <-> y = x.
Proof.
  split.
  - intros [Hxy Hyx]. destruct (decide (y = x)) as [|Hne]; [assumption|].
    destruct (sto_total _ order y x Hne); congruence.
  - intros ->. split; apply (sto_irrefl _ order).
Qed.

Lemma descending_cons x l :
  descending prefers (x :: l) <->
  descending prefers l /\ Forall (fun y => prefers y x = false) l.
Proof.
  unfold descending. split.
  - intros Hs. apply StronglySorted_inv in Hs. exact Hs.
  - intros [Hs Hf]. now constructor.
Qed.

(** Two descending arrangements of the same items are the same list. *)
Lemma descending_unique l1 l2 :
  descending prefers l1 -> descending prefers l2 -> l1 ≡ₚ l2 -> l1 = l2.
Proof.
  revert l2. induction l1 as [|x l1 IH]; intros l2 H1 H2 Hp.
  - apply Permutation_nil in Hp. now subst.
  - destruct l2 as [|y l2].
    { symmetry in Hp. apply Permutation_nil in Hp. discriminate. }
    apply descending_cons in H1 as [H1 F1]. apply descending_cons in H2 as [H2 F2].
    assert (x = y) as ->.
    { assert (x ∈ y :: l2) as Hx by (rewrite <- Hp; left).
      assert (y ∈ x :: l1) as Hy by (rewrite Hp; left).
      apply elem_of_cons in Hx as [|Hx]; [assumption|].
      apply elem_of_cons in Hy as [|Hy]; [congruence|].
      rewrite Forall_forall in F1, F2.
      apply F1 in Hy. apply F2 in Hx.
      apply (proj1 (tied_is_equal y x)). auto. }
    f_equal. apply IH; auto. now apply Permutation_cons_inv in Hp.
Qed.

Context {St : Type}.
Variable cmp : comparator St.
Hypothesis cmp_order : implements cmp prefers.

Lemma implements_answers : answers cmp.
Proof. intros x y s. destruct (cmp_order x y s) as [s' E]. eauto. Qed.

Lemma implements_reply x y s b s' :
  cmp x y s = Returned b s' -> prefers x y = b.
Proof. destruct (cmp_order x y s) as [s1 E]. congruence. Qed.

Lemma spec_merge_descending left right s out s' :
  spec_merge cmp left right s = Returned out s' ->
  descending prefers left -> descending prefers right -> descending prefers out.
Proof.
  revert left right s out s'.
  apply (merge_returned_ind cmp (fun left right _ out _ =>
    descending prefers left -> descending prefers right -> descending prefers out)).
  - auto.
  - auto.
  - intros x left y right s s1 o s' C M IH Hl Hr.
    apply implements_reply in C. apply spec_merge_perm in M.
    apply descending_cons in Hl as [Hl Fl].
    apply descending_cons. split; [auto|].
    rewrite <- M. apply Forall_app. split; [exact Fl|].
    apply descending_cons in Hr as [Hr Fr].
    pose proof (prefers_asym _ _ C) as Hyx.
    constructor; [exact Hyx|].
    eapply Forall_impl; [exact Fr|]. intros z Hz. simpl in Hz.
    eapply not_below_trans; eauto.
  - intros x left y right s s1 o s' C M IH Hl Hr.
    apply implements_reply in C. apply spec_merge_perm in M.
    apply descending_cons in Hr as [Hr Fr].
    apply descending_cons. split; [auto|].
    rewrite <- M. apply Forall_app. split; [|exact Fr].
    apply descending_cons in Hl as [Hl Fl].
    constructor; [exact C|].
    eapply Forall_impl; [exact Fl|]. intros z Hz. simpl in Hz.
    eapply not_below_trans; eauto.
Qed.

Lemma mergeSortWithCmp_descending items s out s' :
  mergeSortWithCmp cmp items s = Returned out s' -> descending prefers out.
Proof.
  revert items s out s'.
  apply (sort_returned_ind cmp (fun _ _ out _ => descending prefers out)).
  - intros items s Hs. destruct items as [|x [|y items]]; simpl in Hs; try lia.
    + constructor.
    + repeat constructor.
  - intros items s l s1 r s2 out s' Hbig El IHl Er IHr M.
    eapply spec_merge_descending; eauto.
Qed.

Lemma mergeSortWithCmp_stable items s out s' :
  mergeSortWithCmp cmp items s = Returned out s' -> stable prefers items out.
Proof.
  intros E x. apply mergeSortWithCmp_perm in E.
  apply filter_only_perm with (x := x); [apply tied_is_equal | now symmetry].
Qed.

Lemma mergeSortWithCmp_sorted_again items s out s' s2 :
  mergeSortWithCmp cmp items s = Returned out s' ->
  exists s3, mergeSortWithCmp cmp out s2 = Returned out s3.
Proof.
  intros E.
  destruct (mergeSortWithCmp_returns cmp out s2 implements_answers)
    as (out2 & s3 & E2).
  exists s3. rewrite E2. f_equal.
  apply descending_unique.
  - eapply mergeSortWithCmp_descending; eauto.
  - eapply mergeSortWithCmp_descending; eauto.
  - symmetry. eapply mergeSortWithCmp_perm; eauto.
Qed.

End Ordered.

(** What the merge does with a tie: on items that the comparator does not
    tell apart it answers [false], so the item of the right half goes
    first. *)
Example ties_go_to_the_right_half :
  mergeSortWithCmp (pure_cmp (fun x y => String.length x <? String.length y))
    ["ab"; "cd"]%string tt
  = Returned ["cd"; "ab"]%string tt.
Proof. reflexivity. Qed.

(** * The claims *)

Local Open Scope string_scope.
Local Open Scope list_scope.

(** C1.  The ranking is a permutation of the input, of the same length:
    a comparator that always answers, whatever its answers and whatever
    state it keeps, makes [mergeSortWithCmp] return such a ranking; with
    any comparator at all, a ranking that is returned is one; and
    [interactiveMergeSort] either ends the process (quit or end of input)
    or returns one. *)
Theorem sort_is_permutation :
  (forall (St : Type) (c : string -> string -> St -> bool * St) items s,
     exists out s',
       mergeSortWithCmp (of_fun c) items s = Returned out s' /\
       items ≡ₚ out /\ length out = length items) /\
  (forall (St : Type) (cmp : comparator St) items s,
     match mergeSortWithCmp cmp items s with
     | Returned out _ => items ≡ₚ out /\ length out = length items
     | _ => True
     end) /\
  (forall (G : StringsPkg) items w,
     match interactiveMergeSort items w with
     | Returned out _ => items ≡ₚ out /\ length out = length items
     | Exited _ _ => True
     | OutOfFuel => False
     end).
Proof.
  assert (forall (St : Type) (cmp : comparator St) items s,
     match mergeSortWithCmp cmp items s with
     | Returned out _ => items ≡ₚ out /\ length out = length items
     | _ => True
     end) as Hany.
  { intros St cmp items s.
    destruct (mergeSortWithCmp cmp items s) as [out s'| |] eqn:E; trivial.
    apply mergeSortWithCmp_perm in E. split; [exact E|].
    symmetry. now apply Permutation_length. }
  repeat split.
  - intros St c items s.
    destruct (mergeSortWithCmp_returns (of_fun c) items s (of_fun_answers c))
      as (out & s' & E).
    specialize (Hany St (of_fun c) items s). rewrite E in Hany.
    exists out, s'. tauto.
  - exact Hany.
  - intros G items w. rewrite interactiveMergeSort_engine.
    specialize (Hany world askPreference items w).
    pose proof (mergeSortWithCmp_fueled askPreference askPreference_fueled items w).
    revert Hany H.
    destruct (mergeSortWithCmp askPreference items w); intros Hany Hf;
      [exact Hany|trivial|congruence].
Qed.

(** C2.  When the comparator answers by a strict total order, the sort
    returns, and its ranking is the input rearranged most preferred first:
    no item is strictly preferred to one ranked before it, and for every
    item [x] the items that the order does not tell apart from [x] appear
    in the ranking in the order they had in the input. *)
Theorem ranking_is_stable_descending (prefers : string -> string -> bool)
    (St : Type) (cmp : comparator St) (items : list string) (s : St) :
  strict_total_order prefers ->
  implements cmp prefers ->
  exists out s',
    mergeSortWithCmp cmp items s = Returned out s' /\
    items ≡ₚ out /\
    descending prefers out /\
    stable prefers items out.
Proof.
  intros Ho Hc.
  destruct (mergeSortWithCmp_returns cmp items s (implements_answers _ _ Hc))
    as (out & s' & E).
  exists out, s'. split; [exact E|]. split; [|split].
  - eapply mergeSortWithCmp_perm; eauto.
  - eapply mergeSortWithCmp_descending; eauto.
  - eapply mergeSortWithCmp_stable; eauto.
Qed.

Lemma ranking_is_stable_descending_witness :
  exists out s',
    mergeSortWithCmp (pure_cmp String.ltb)
      ["Cherry"; "Apple"; "Banana"; "Apple"] tt = Returned out s' /\
    ["Cherry"; "Apple"; "Banana"; "Apple"] ≡ₚ out /\
    descending String.ltb out /\
    stable String.ltb ["Cherry"; "Apple"; "Banana"; "Apple"] out.
Proof.
  exact (ranking_is_stable_descending String.ltb unit (pure_cmp String.ltb)
           ["Cherry"; "Apple"; "Banana"; "Apple"] tt
           alphabetical_strict_total_order (pure_cmp_implements String.ltb)).
Defined.

Example alphabetical_ranking :
  mergeSortWithCmp (pure_cmp String.ltb) ["Cherry"; "Apple"; "Banana"; "Apple"] tt
  = Returned ["Apple"; "Apple"; "Banana"; "Cherry"] tt.
Proof. reflexivity. Qed.

(** C3.  With [n] items the engine calls the comparator at least [n - 1]
    times (none for [n = 0]) and at most [n * ceil(log2 n)] times.  The
    calls are counted by the recording test double, which leaves the run
    as it is: for a comparator that always answers the sort returns and
    the record has that length; for any comparator, and for the console
    engine with its oracle, so has the record of a run that returns. *)
Theorem comparison_count_bounds :
  (forall (St : Type) (c : string -> string -> St -> bool * St) items s,
     exists out s' log,
       mergeSortWithCmp (traced (of_fun c)) items (s, []) = Returned out (s', log) /\
       mergeSortWithCmp (of_fun c) items s = Returned out s' /\
       length items - 1 <= length log <= length items * Nat.log2_up (length items)) /\
  (forall (St : Type) (cmp : comparator St) items s,
     match mergeSortWithCmp (traced cmp) items (s, []) with
     | Returned out (s', log) =>
         mergeSortWithCmp cmp items s = Returned out s' /\
         length items - 1 <= length log <= length items * Nat.log2_up (length items)
     | _ => True
     end) /\
  (forall (G : StringsPkg) items w,
     match mergeSortWithCmp (traced askPreference) items (w, []) with
     | Returned out (w', log) =>
         interactiveMergeSort items w = Returned out w' /\
         length items - 1 <= length log <= length items * Nat.log2_up (length items)
     | _ => True
     end).
Proof.
  assert (forall (St : Type) (cmp : comparator St) items s,
     match mergeSortWithCmp (traced cmp) items (s, []) with
     | Returned out (s', log) =>
         mergeSortWithCmp cmp items s = Returned out s' /\
         length items - 1 <= length log <= length items * Nat.log2_up (length items)
     | _ => True
     end) as Hany.
  { intros St cmp items s.
    pose proof (forget_sort cmp items (s, [])) as Hf.
    destruct (mergeSortWithCmp (traced cmp) items (s, [])) as [out [s' log]| |] eqn:E;
      trivial.
    apply traced_sort_calls in E as (k & Hk & Hb).
    cbn [fst snd forget] in *. rewrite app_nil_l in Hk. subst k.
    split; [now symmetry|exact Hb]. }
  split; [|split].
  - intros St c items s.
    destruct (mergeSortWithCmp_returns (traced (of_fun c)) items (s, [])
                (traced_answers _ (of_fun_answers c))) as (out & [s' log] & E).
    specialize (Hany St (of_fun c) items s). rewrite E in Hany.
    exists out, s', log. tauto.
  - exact Hany.
  - intros G items w. rewrite interactiveMergeSort_engine. apply Hany.
Qed.

(** The scenarios of the specification, run on the recording test double:
    three presorted items take two calls, and two items in the wrong
    order take the single call [("X", "Y")], answered [false]. *)
Example three_presorted_items :
  mergeSortWithCmp (traced (pure_cmp String.ltb)) ["Apple"; "Banana"; "Cherry"] (tt, [])
  = Returned ["Apple"; "Banana"; "Cherry"]
      (tt, [("Banana", "Cherry", true); ("Apple", "Banana", true)]).
Proof. reflexivity. Qed.

Example two_items_swapped :
  mergeSortWithCmp (traced (pure_cmp (fun x y => String.ltb y x))) ["X"; "Y"] (tt, [])
  = Returned ["Y"; "X"] (tt, [("X", "Y", false)]).
Proof. reflexivity. Qed.

(** C4.  The engine is top-down merge sort.  A sequence of at most one
    item is returned as it is, without a call.  A longer one is cut at
    [len/2], the right part getting the extra item when the length is odd;
    the left part is sorted first, then the right part, then both are
    merged.  The merge asks [cmp(left[i], right[j])] for the two heads,
    emits the left head on [true] and the right head on [false], and goes
    on with what remains; once a side is exhausted the other side is
    appended as it is and the comparator's state is untouched. *)
Theorem engine_is_top_down_merge_sort (St : Type) (cmp : comparator St) :
  (forall items s, length items <= 1 ->
     mergeSortWithCmp cmp items s = Returned items s) /\
  (forall items s, 2 <= length items ->
     let mid := length items / 2 in
     length (take mid items) = mid /\
     length (drop mid items) = length items - mid /\
     length items - mid = mid + length items mod 2 /\
     take mid items ++ drop mid items = items /\
     mergeSortWithCmp cmp items s =
       (let* left := mergeSortWithCmp cmp (take mid items) in
        let* right := mergeSortWithCmp cmp (drop mid items) in
        mergeWithCmp cmp left right) s) /\
  (forall right s, mergeWithCmp cmp [] right s = Returned right s) /\
  (forall left s, mergeWithCmp cmp left [] s = Returned left s) /\
  (forall x left y right s,
     mergeWithCmp cmp (x :: left) (y :: right) s =
     match cmp x y s with
     | Returned true s' => omap (cons x) (mergeWithCmp cmp left (y :: right) s')
     | Returned false s' => omap (cons y) (mergeWithCmp cmp (x :: left) right s')
     | Exited c s' => Exited c s'
     | OutOfFuel => OutOfFuel
     end) /\
  (forall left right s, mergeWithCmp cmp left right s = spec_merge cmp left right s).
Proof.
  split; [|split; [|split; [|split; [|split]]]].
  - intros items s Hs. now apply mergeSortWithCmp_small.
  - intros items s Hbig mid.
    assert (length items - mid = mid + length items mod 2) as Hhalf.
    { subst mid. pose proof (Nat.div_mod_eq (length items) 2) as Hd. lia. }
    split; [rewrite length_take; lia|].
    split; [apply length_drop|].
    split; [exact Hhalf|].
    split; [apply take_drop|].
    rewrite mergeSortWithCmp_unfold by lia.
    apply bind_ext; [reflexivity|]. intros l s1.
    apply bind_ext; [reflexivity|]. intros r s2.
    symmetry. apply mergeWithCmp_spec.
  - intros right s. now rewrite mergeWithCmp_spec, spec_merge_nil_l.
  - intros left s. now rewrite mergeWithCmp_spec, spec_merge_nil_r.
  - intros x left y right s. rewrite mergeWithCmp_spec, spec_merge_cons.
    destruct (cmp x y s) as [[|] s'| |]; try reflexivity;
      now rewrite mergeWithCmp_spec.
  - apply mergeWithCmp_spec.
Qed.

Lemma engine_is_top_down_merge_sort_witness :
  mergeSortWithCmp (pure_cmp String.ltb) ["Cherry"; "Apple"; "Banana"] tt =
  (let* left := mergeSortWithCmp (pure_cmp String.ltb) ["Cherry"] in
   let* right := mergeSortWithCmp (pure_cmp String.ltb) ["Apple"; "Banana"] in
   mergeWithCmp (pure_cmp String.ltb) left right) tt.
Proof.
  refine (proj2 (proj2 (proj2 (proj2 (proj1 (proj2
    (engine_is_top_down_merge_sort unit (pure_cmp String.ltb)))
    ["Cherry"; "Apple"; "Banana"] tt _))))).
  simpl. lia.
Defined.

(** C5.  The console engine is the comparator engine run with the console
    oracle: on every input and every state of the console the two give the
    same outcome.  And whatever comparator drives [mergeSortWithCmp], if
    its run returns a ranking after a recorded sequence of calls, then the
    console engine, fed the lines that give the same replies, prints the
    prompts of exactly those calls in that order, consumes exactly those
    lines, and returns the same ranking. *)
Theorem console_engine_is_comparator_engine (G : StringsPkg)
    (St : Type) (cmp : comparator St) (items : list string) (s : St)
    (out : list string) (s' : St) (log : list call) :
  ToLower (TrimSpace ("1" +:+ nl)) = "1" ->
  ToLower (TrimSpace ("2" +:+ nl)) = "2" ->
  mergeSortWithCmp (traced cmp) items (s, []) = Returned out (s', log) ->
  (forall its w, interactiveMergeSort its w = mergeSortWithCmp askPreference its w) /\
  mergeSortWithCmp cmp items s = Returned out s' /\
  (forall rest o e,
     interactiveMergeSort items (World (feed (answer_lines log) rest) o e) =
     Returned out (World rest (o ++ prompts log) e)) /\
  (forall rest o e,
     mergeSortWithCmp (traced askPreference) items
       (World (feed (answer_lines log) rest) o e, []) =
     Returned out (World rest (o ++ prompts log) e, log)).
Proof.
  intros H1 H2 E.
  split; [intros its w; apply interactiveMergeSort_engine|].
  split.
  { pose proof (forget_sort cmp items (s, [])) as Hf. rewrite E in Hf.
    now symmetry. }
  apply (replay_sort H1 H2) in E as Hconsole.
  destruct Hconsole as (k & Hk & Hconsole).
  cbn [snd] in Hk. rewrite app_nil_l in Hk. subst k.
  split.
  - intros rest o e. rewrite interactiveMergeSort_engine.
    pose proof (forget_sort askPreference items
                  (World (feed (answer_lines log) rest) o e, [])) as Hf.
    rewrite Hconsole in Hf. now symmetry.
  - intros rest o e. now rewrite Hconsole.
Qed.

Lemma console_engine_is_comparator_engine_witness :
  interactiveMergeSort ["X"; "Y"; "Z"] (World (feed ["2"; "1"] ("2" +:+ nl)) [] []) =
  Returned ["X"; "Z"; "Y"]
    (World ("2" +:+ nl) ([] ++ prompt "Y" "Z" ++ prompt "X" "Z" ++ []) []).
Proof.
  exact (proj1 (proj2 (proj2
    (console_engine_is_comparator_engine ascii_strings
       (list bool)
       (fun _ _ script =>
          match script with
          | [] => Exited 1 script
          | reply :: script' => Returned reply script'
          end)
       ["X"; "Y"; "Z"] [false; true; false] ["X"; "Z"; "Y"] [false]
       [("Y", "Z", false); ("X", "Z", true)]
       eq_refl eq_refl eq_refl))) ("2" +:+ nl) [] []).
Defined.

(** C6. The console oracle reads one line at a time, trims it and lowers
    its case.  After any number of lines it does not recognise, each
    answered by the invalidity notice and a fresh prompt, a line that
    normalises to ["1"] or ["a"] makes [askPreference] return [true], one
    that normalises to ["2"] or ["b"] makes it return [false], and one that
    normalises to ["q"], ["quit"] or ["exit"] ends the process with status
    0, whatever the program would have done with the answer.  Exactly the
    lines up to the recognised one are consumed. *)
Theorem askPreference_protocol `{StringsPkg} (a b : string) (bad : list string)
    (line rest : string) (o e : list string) :
  forallb rejected bad = true ->
  one_line line = true ->
  let k := ToLower (TrimSpace (line +:+ nl)) in
  let w := World (feed (bad ++ [line]) rest) o e in
  let shown := o ++ retries (length bad) a b ++ prompt a b in
  ((k = "1" \/ k = "a") ->
     askPreference a b w = Returned true (World rest shown e)) /\
  ((k = "2" \/ k = "b") ->
     askPreference a b w = Returned false (World rest shown e)) /\
  ((k = "q" \/ k = "quit" \/ k = "exit") ->
     forall (R : Type) (rest_of_program : bool -> proc world R),
       bind (askPreference a b) rest_of_program w =
       Exited 0 (World rest (shown ++ ["Quitting." +:+ nl]) e)).
Proof.
  intros Hbad Hline k w shown. subst w shown.
  assert (askPreference a b (World (feed (bad ++ [line]) rest) o e) =
    ask_turn askPreference a b
      (World (feed [line] rest) (o ++ retries (length bad) a b) e)) as Hturn.
  { unfold feed at 1. rewrite foldr_app.
    fold (feed [line] rest). fold (feed bad (feed [line] rest)).
    rewrite (askPreference_retries _ _ _ _ _ _ Hbad), askPreference_turn.
    reflexivity. }
  unfold ask_turn in Hturn. cbn [feed foldr stdin stdout stderr] in Hturn.
  rewrite (split_line_one_line _ _ Hline) in Hturn. fold k in Hturn.
  rewrite <- app_assoc in Hturn.
  repeat split.
  - intros Hk. rewrite Hturn. now rewrite bool_decide_eq_true_2.
  - intros Hk. rewrite Hturn.
    rewrite bool_decide_eq_false_2 by (intros [E|E]; destruct Hk; congruence).
    now rewrite bool_decide_eq_true_2.
  - intros Hk R rest_of_program. unfold bind. rewrite Hturn.
    rewrite bool_decide_eq_false_2
      by (intros [E|E]; destruct Hk as [?|[?|?]]; congruence).
    rewrite bool_decide_eq_false_2
      by (intros [E|E]; destruct Hk as [?|[?|?]]; congruence).
    rewrite bool_decide_eq_true_2 by assumption.
    now rewrite <- !app_assoc.
Qed.

Lemma askPreference_protocol_witness :
  askPreference "Apple" "Banana"
    (World (feed (["banana"; ""] ++ [" B "]) ("1" +:+ nl)) [] []) =
  Returned false
    (World ("1" +:+ nl)
       ([] ++ retries 2 "Apple" "Banana" ++ prompt "Apple" "Banana") []).
Proof.
  exact (proj1 (proj2
    (askPreference_protocol (H := ascii_strings) "Apple" "Banana"
       ["banana"; ""] " B " ("1" +:+ nl) [] [] eq_refl eq_refl))
    (or_intror eq_refl)).
Defined.

(** With Go's [strings] functions as they act on ASCII text: the answer is
    matched whatever its case and the white space around it, and the end
    of the input ends the process with status 1. *)
Example quit_in_any_case :
  askPreference "A" "B" (World (feed ["  QuIt "] ("1" +:+ nl)) [] []) =
  Exited 0 (World ("1" +:+ nl) (prompt "A" "B" ++ ["Quitting." +:+ nl]) []).
Proof. reflexivity. Qed.

Example end_of_input :
  askPreference "A" "B" (World "1" [] []) =
  Exited 1 (World "" (prompt "A" "B") ["read error: EOF" +:+ nl]).
Proof. reflexivity. Qed.

(** C7, as the specification words it, fails (with Go's [strings]
    functions as they act on ASCII text): on the input lines ["1"],
    ["banana"], ["2"] the very first line is a valid answer, so the
    comparison is settled for A at once. *)
Lemma askPreference_scenario_counterexample :
  ~ exists w',
      askPreference "A" "B" (World (feed ["1"; "banana"; "2"] "") [] []) =
      Returned false w'.
Proof.
  intros [w' E]. vm_compute in E. discriminate E.
Qed.

(** C7, amended (with Go's [strings] functions as they act on ASCII
    text).  Fed the lines ["1"], ["banana"], ["2"], one comparison
    is settled by the first line: [askPreference] returns [true] after a
    single prompt and leaves ["banana"] and ["2"] unread.  Fed the lines
    ["banana"], ["2"], it prints the invalidity notice, prompts a second
    time, and returns [false] (prefer B) on the line ["2"]. *)
Theorem askPreference_scenario (a b : string) (o e : list string) :
  askPreference a b (World (feed ["1"; "banana"; "2"] "") o e) =
    Returned true (World (feed ["banana"; "2"] "") (o ++ prompt a b) e) /\
  askPreference a b (World (feed ["banana"; "2"] "") o e) =
    Returned false
      (World "" (o ++ (prompt a b ++ [invalid_notice +:+ nl]) ++ prompt a b) e).
Proof.
  split.
  - rewrite askPreference_turn. reflexivity.
  - change (feed ["banana"; "2"] "") with (feed ["banana"] (feed ["2"] "")).
    rewrite (askPreference_retries (H := ascii_strings) a b ["banana"] _ o e eq_refl).
    rewrite askPreference_turn. unfold retries.
    cbn [length replicate concat]. rewrite app_nil_r.
    unfold ask_turn. cbn [stdin stdout stderr].
    rewrite <- !app_assoc. reflexivity.
Qed.

(** C8.  Along any run of the UI loop from [initialModel], the booleans
    sent on a channel are at most as many as the comparison requests that
    carried that channel as their reply slot, so a request delivered once
    is answered at most once.  Each [Update] sends nothing, or sends one
    boolean on the pending slot [m.req] and leaves the slot nil; with the
    slot nil a key press sends nothing.  The model has a single slot: an
    arriving request becomes the pending one. *)
Theorem reply_slot_written_once (compCh : nat) (msgs : list Tui.msg) (c : nat) :
  Tui.sends_on c (snd (Tui.run_ui (Tui.initialModel compCh) msgs))
    <= Tui.requests_for c msgs /\
  (forall m x,
     let '(m', _, out) := Tui.Update m x in
     out = [] \/
     exists ch v, Tui.req m = Some ch /\ out = [(ch, v)] /\ Tui.req m' = None) /\
  (forall m key, Tui.req m = None -> snd (Tui.Update m (Tui.KeyMsg key)) = []) /\
  (forall m r, Tui.req (fst (fst (Tui.Update m (Tui.cmpRequestMsg r)))) = Tui.Resp r).
Proof.
  repeat split.
  - pose proof (run_ui_sends c msgs (Tui.initialModel compCh)) as Hrun.
    unfold Tui.pending_on in Hrun. simpl in Hrun. exact Hrun.
  - intros m x. destruct x as [r|key| | |]; cbn [Tui.Update]; auto.
    destruct (Tui.req m) as [ch|] eqn:E;
      repeat match goal with
             | |- context [if Tui.key_in ?k ?l then _ else _] =>
                 destruct (Tui.key_in k l)
             end; cbn [Tui.req]; eauto 8.
  - intros m key Hidle. cbn [Tui.Update]. rewrite Hidle.
    repeat match goal with
           | |- context [if Tui.key_in ?k ?l then _ else _] =>
               destruct (Tui.key_in k l)
           end; reflexivity.
Qed.

Lemma reply_slot_written_once_witness :
  snd (Tui.Update
         (fst (fst (Tui.Update
            (Tui.Model 0 "Apple" "Banana" (Some 7) "") (Tui.KeyMsg "left"))))
         (Tui.KeyMsg "h")) = [].
Proof.
  exact (proj1 (proj2 (proj2 (reply_slot_written_once 0 [] 0)))
           (fst (fst (Tui.Update
              (Tui.Model 0 "Apple" "Banana" (Some 7) "") (Tui.KeyMsg "left"))))
           "h" eq_refl).
Defined.

(** A request answered with the left key, then two more key presses: one
    boolean goes out, on the channel of that request. *)
Example ui_answers_once :
  snd (Tui.run_ui (Tui.initialModel 0)
         [Tui.cmpRequestMsg (Tui.CompareRequest "Apple" "Banana" (Some 7));
          Tui.KeyMsg "left"; Tui.KeyMsg "l"; Tui.KeyMsg "left"])
  = [(7, true)].
Proof. reflexivity. Qed.

(** C9.  When the comparator answers by a strict total order, sorting the
    ranking again, from any state of the comparator, returns the ranking
    unchanged. *)
Theorem sort_is_idempotent (prefers : string -> string -> bool)
    (St : Type) (cmp : comparator St) (items : list string) (s : St) :
  strict_total_order prefers ->
  implements cmp prefers ->
  exists out s1,
    mergeSortWithCmp cmp items s = Returned out s1 /\
    forall s2, exists s3, mergeSortWithCmp cmp out s2 = Returned out s3.
Proof.
  intros Ho Hc.
  destruct (mergeSortWithCmp_returns cmp items s (implements_answers _ _ Hc))
    as (out & s1 & E).
  exists out, s1. split; [exact E|].
  intros s2. eapply mergeSortWithCmp_sorted_again; eauto.
Qed.

Lemma sort_is_idempotent_witness :
  exists out s1,
    mergeSortWithCmp (pure_cmp String.ltb) ["Cherry"; "Apple"; "Banana"] tt
      = Returned out s1 /\
    forall s2, exists s3,
      mergeSortWithCmp (pure_cmp String.ltb) out s2 = Returned out s3.
Proof.
  exact (sort_is_idempotent String.ltb unit (pure_cmp String.ltb)
           ["Cherry"; "Apple"; "Banana"] tt
           alphabetical_strict_total_order (pure_cmp_implements String.ltb)).
Defined.

(** C10.  Whatever the comparator answers, a merge that returns keeps
    each of its two inputs as a subsequence of its output; so does the
    console merge, which returns or ends the process; and when the sort of
    a sequence of two or more items returns, its two sorted halves are
    subsequences of the ranking. *)
Theorem merge_keeps_each_half_in_order :
  (forall (St : Type) (cmp : comparator St) left right s,
     match mergeWithCmp cmp left right s with
     | Returned out _ => left `sublist_of` out /\ right `sublist_of` out
     | _ => True
     end) /\
  (forall (St : Type) (c : string -> string -> St -> bool * St) left right s,
     exists out s', mergeWithCmp (of_fun c) left right s = Returned out s') /\
  (forall (G : StringsPkg) left right w,
     match interactiveMerge left right w with
     | Returned out _ => left `sublist_of` out /\ right `sublist_of` out
     | Exited _ _ => True
     | OutOfFuel => False
     end) /\
  (forall (St : Type) (cmp : comparator St) items s out s',
     mergeSortWithCmp cmp items s = Returned out s' ->
     2 <= length items ->
     exists left s1 right s2,
       mergeSortWithCmp cmp (take (length items / 2) items) s = Returned left s1 /\
       mergeSortWithCmp cmp (drop (length items / 2) items) s1 = Returned right s2 /\
       left `sublist_of` out /\ right `sublist_of` out).
Proof.
  assert (forall (St : Type) (cmp : comparator St) left right s,
     match mergeWithCmp cmp left right s with
     | Returned out _ => left `sublist_of` out /\ right `sublist_of` out
     | _ => True
     end) as Hany.
  { intros St cmp left right s. rewrite mergeWithCmp_spec.
    destruct (spec_merge cmp left right s) as [out s'| |] eqn:E; trivial.
    now apply spec_merge_sublist in E. }
  split; [exact Hany|]. split; [|split].
  - intros St c left right s. rewrite mergeWithCmp_spec.
    apply spec_merge_returns, of_fun_answers.
  - intros G left right w. rewrite interactiveMerge_engine.
    specialize (Hany world askPreference left right w).
    rewrite mergeWithCmp_spec in *.
    pose proof (spec_merge_fueled askPreference askPreference_fueled left right w).
    revert Hany H.
    destruct (spec_merge askPreference left right w); intros Hany Hf;
      [exact Hany|trivial|congruence].
  - intros St cmp items s out s' E Hbig.
    rewrite mergeSortWithCmp_unfold in E by lia. unfold bind in E.
    destruct (mergeSortWithCmp cmp (take _ items) s) as [l s1| |] eqn:El;
      try discriminate.
    destruct (mergeSortWithCmp cmp (drop _ items) s1) as [r s2| |] eqn:Er;
      try discriminate.
    exists l, s1, r, s2. apply spec_merge_sublist in E as [Hl Hr]. auto.
Qed.

Lemma merge_keeps_each_half_in_order_witness :
  exists left s1 right s2,
    mergeSortWithCmp (pure_cmp String.ltb) (take 1 ["Cherry"; "Apple"; "Banana"]) tt
      = Returned left s1 /\
    mergeSortWithCmp (pure_cmp String.ltb) (drop 1 ["Cherry"; "Apple"; "Banana"]) s1
      = Returned right s2 /\
    left `sublist_of` ["Apple"; "Banana"; "Cherry"] /\
    right `sublist_of` ["Apple"; "Banana"; "Cherry"].
Proof.
  refine (proj2 (proj2 (proj2 merge_keeps_each_half_in_order))
    unit (pure_cmp String.ltb) ["Cherry"; "Apple"; "Banana"] tt
    ["Apple"; "Banana"; "Cherry"] tt _ _).
  - reflexivity.
  - simpl. lia.
Defined.

(** * Further properties of the code *)

(** ** The merge and the sort of [tui.go] *)

Section MergeCalls.
Context {St : Type}.
Variable cmp : comparator St.

Lemma traced_merge_sides left right sl out sl' :
  spec_merge (traced cmp) left right sl = Returned out sl' ->
  exists k, snd sl' = snd sl ++ k /\
    Forall (fun c : call => fst (fst c) ∈ left /\ snd (fst c) ∈ right) k.
Proof.
  revert left right sl out sl'. apply merge_returned_ind.
  - intros right sl. exists []. rewrite app_nil_r. auto.
  - intros left sl. exists []. rewrite app_nil_r. auto.
  - intros x left y right sl sl1 o sl' C M (k & Hk & Hf).
    apply traced_returned in C as [_ Hlog].
    exists ((x, y, true) :: k). rewrite Hk, Hlog, <- app_assoc.
    split; [reflexivity|]. constructor.
    + cbn [fst snd]. split; left.
    + eapply Forall_impl; [exact Hf|]. intros c [Hl Hr]. split; [now right|exact Hr].
  - intros x left y right sl sl1 o sl' C M (k & Hk & Hf).
    apply traced_returned in C as [_ Hlog].
    exists ((x, y, false) :: k). rewrite Hk, Hlog, <- app_assoc.
    split; [reflexivity|]. constructor.
    + cbn [fst snd]. split; left.
    + eapply Forall_impl; [exact Hf|]. intros c [Hl Hr]. split; [exact Hl|now right].
Qed.

Lemma earlier_against_later_take n items c :
  earlier_against_later (take n items) c -> earlier_against_later items c.
Proof.
  intros (i & j & Hij & Hi & Hj).
  apply lookup_take_Some in Hi as [Hi _]. apply lookup_take_Some in Hj as [Hj _].
  exists i, j. auto.
Qed.

Lemma earlier_against_later_drop n items c :
  earlier_against_later (drop n items) c -> earlier_against_later items c.
Proof.
  intros (i & j & Hij & Hi & Hj). rewrite lookup_drop in Hi, Hj.
  exists (n + i), (n + j). split; [lia|auto].
Qed.

Lemma traced_sort_places items sl out sl' :
  mergeSortWithCmp (traced cmp) items sl = Returned out sl' ->
  exists k, snd sl' = snd sl ++ k /\ Forall (earlier_against_later items) k.
Proof.
  revert items sl out sl'. apply sort_returned_ind.
  - intros items sl Hs. exists []. rewrite app_nil_r. auto.
  - intros items sl l sl1 r sl2 out sl' Hbig El (ka & Hka & Fa) Er (kb & Hkb & Fb) M.
    apply traced_merge_sides in M as (km & Hkm & Fm).
    apply mergeSortWithCmp_perm in El, Er.
    exists (ka ++ kb ++ km). rewrite Hkm, Hkb, Hka, <- !app_assoc.
    split; [reflexivity|]. rewrite !Forall_app. split; [|split].
    + eapply Forall_impl; [exact Fa|]. intros c. apply earlier_against_later_take.
    + eapply Forall_impl; [exact Fb|]. intros c. apply earlier_against_later_drop.
    + eapply Forall_impl; [exact Fm|]. intros c [Hx Hy].
      rewrite <- El in Hx. rewrite <- Er in Hy.
      apply list_elem_of_lookup in Hx as [i Hi]. apply list_elem_of_lookup in Hy as [j Hj].
      apply lookup_take_Some in Hi as [Hi Him]. rewrite lookup_drop in Hj.
      exists i, (length items / 2 + j). split; [lia|auto].
Qed.

Lemma spec_merge_exit left right s c s' :
  spec_merge cmp left right s = Exited c s' ->
  exists x y s0, x ∈ left /\ y ∈ right /\ cmp x y s0 = Exited c s'.
Proof.
  revert right s. induction left as [|x left IHl]; intros right.
  - intros s. rewrite spec_merge_nil_l. discriminate.
  - induction right as [|y right IHr]; intros s.
    + rewrite spec_merge_nil_r. discriminate.
    + rewrite spec_merge_cons.
      destruct (cmp x y s) as [[|] s1|c1 s1|] eqn:C; try discriminate.
      * destruct (spec_merge cmp left (y :: right) s1) as [o s2|c2 s2|] eqn:M;
          simpl; try discriminate.
        intros E. inversion E; subst.
        destruct (IHl _ _ M) as (x' & y' & s0 & Hx & Hy & E').
        exists x', y', s0. split; [now right|auto].
      * destruct (spec_merge cmp (x :: left) right s1) as [o s2|c2 s2|] eqn:M;
          simpl; try discriminate.
        intros E. inversion E; subst.
        destruct (IHr _ M) as (x' & y' & s0 & Hx & Hy & E').
        exists x', y', s0. split; [auto|]. split; [now right|auto].
      * intros E. inversion E; subst. exists x, y, s. repeat split; [left|left|exact C].
Qed.

Lemma mergeSortWithCmp_exit items s c s' :
  mergeSortWithCmp cmp items s = Exited c s' ->
  exists x y s0, x ∈ items /\ y ∈ items /\ cmp x y s0 = Exited c s'.
Proof.
  remember (length items) as n eqn:Hn.
  assert (length items <= n) as Hle by lia. clear Hn.
  revert items Hle s.
  induction n as [|n IH]; intros items Hle s.
  { rewrite mergeSortWithCmp_small by lia. discriminate. }
  destruct (decide (length items <= 1)) as [Hs|Hs].
  { rewrite mergeSortWithCmp_small by lia. discriminate. }
  rewrite mergeSortWithCmp_unfold by lia. unfold bind.
  assert (0 < length items / 2 < length items) as Hmid.
  { split; [apply Nat.div_str_pos; lia | apply Nat.div_lt; lia]. }
  assert (forall x, x ∈ take (length items / 2) items -> x ∈ items) as Htake.
  { intros x Hx. rewrite <- (take_drop (length items / 2) items).
    apply elem_of_app. now left. }
  assert (forall x, x ∈ drop (length items / 2) items -> x ∈ items) as Hdrop.
  { intros x Hx. rewrite <- (take_drop (length items / 2) items).
    apply elem_of_app. now right. }
  destruct (mergeSortWithCmp cmp (take _ items) s) as [l s1|c1 s1|] eqn:El;
    try discriminate.
  - destruct (mergeSortWithCmp cmp (drop _ items) s1) as [r s2|c2 s2|] eqn:Er;
      try discriminate.
    + intros M. apply spec_merge_exit in M as (x & y & s0 & Hx & Hy & E).
      apply mergeSortWithCmp_perm in El, Er.
      rewrite <- El in Hx. rewrite <- Er in Hy. eauto 8.
    + intros E. inversion E; subst.
      apply IH in Er as (x & y & s0 & Hx & Hy & E'); [|rewrite length_drop; lia].
      eauto 8.
  - intros E. inversion E; subst.
    apply IH in El as (x & y & s0 & Hx & Hy & E'); [|rewrite length_take; lia].
    eauto 8.
Qed.

End MergeCalls.

(** *** A user who always picks the same side *)

Section OneSided.
Context {St : Type}.
Variable cmp : comparator St.

Lemma spec_merge_always_first left right s out s' :
  implements cmp (fun _ _ => true) ->
  spec_merge cmp left right s = Returned out s' -> out = left ++ right.
Proof.
  intros Hc. revert left right s out s'.
  apply (merge_returned_ind cmp (fun left right _ out _ => out = left ++ right)).
  - reflexivity.
  - intros left s. now rewrite app_nil_r.
  - intros x left y right s s1 o s' C M ->. reflexivity.
  - intros x left y right s s1 o s' C M _.
    destruct (Hc x y s) as [s2 E]. congruence.
Qed.

Lemma spec_merge_always_second left right s out s' :
  implements cmp (fun _ _ => false) ->
  spec_merge cmp left right s = Returned out s' -> out = right ++ left.
Proof.
  intros Hc. revert left right s out s'.
  apply (merge_returned_ind cmp (fun left right _ out _ => out = right ++ left)).
  - intros right s. now rewrite app_nil_r.
  - reflexivity.
  - intros x left y right s s1 o s' C M _.
    destruct (Hc x y s) as [s2 E]. congruence.
  - intros x left y right s s1 o s' C M ->. reflexivity.
Qed.

Lemma sort_always_first items s out s' :
  implements cmp (fun _ _ => true) ->
  mergeSortWithCmp cmp items s = Returned out s' -> out = items.
Proof.
  intros Hc. revert items s out s'.
  apply (sort_returned_ind cmp (fun items _ out _ => out = items)).
  - reflexivity.
  - intros items s l s1 r s2 out s' Hbig El -> Er -> M.
    apply (spec_merge_always_first _ _ _ _ _ Hc) in M. subst out.
    apply take_drop.
Qed.

Lemma sort_always_second items s out s' :
  implements cmp (fun _ _ => false) ->
  mergeSortWithCmp cmp items s = Returned out s' -> out = reverse items.
Proof.
  intros Hc. revert items s out s'.
  apply (sort_returned_ind cmp (fun items _ out _ => out = reverse items)).
  - intros items s Hs. destruct items as [|x [|y items]]; simpl in Hs; try lia;
      reflexivity.
  - intros items s l s1 r s2 out s' Hbig El -> Er -> M.
    apply (spec_merge_always_second _ _ _ _ _ Hc) in M. subst out.
    rewrite <- reverse_app. now rewrite take_drop.
Qed.

End OneSided.

(** *** Orders with ties *)

Lemma filter_none {A : Type} (P : A -> Prop) `{!forall y, Decision (P y)} (l : list A) :
  Forall (fun y => ~ P y) l -> filter P l = [].
Proof.
  induction 1 as [|y l Hy Hl IH]; [reflexivity|].
  now rewrite filter_cons_False.
Qed.

Lemma score_strict_weak_order (score : string -> nat) :
  strict_weak_order (fun x y => (score x <? score y)%nat).
Proof.
  split.
  - intros x. apply Nat.ltb_irrefl.
  - intros x y z Hxy Hyz. apply Nat.ltb_lt in Hxy, Hyz. apply Nat.ltb_lt. lia.
  - intros x y z Hxz. apply Nat.ltb_lt in Hxz.
    destruct (score x <? score y)%nat eqn:Hxy; [now left|].
    right. apply Nat.ltb_ge in Hxy. apply Nat.ltb_lt. lia.
Qed.

Section Weak.
Variable prefers : string -> string -> bool.
Hypothesis order : strict_weak_order prefers.

Lemma weak_asym x y : prefers x y = true -> prefers y x = false.
Proof.
  intros Hxy. destruct (prefers y x) eqn:Hyx; [|reflexivity].
  pose proof (swo_trans _ order _ _ _ Hxy Hyx) as Hxx.
  rewrite (swo_irrefl _ order) in Hxx. discriminate.
Qed.

Lemma weak_not_below_trans x y z :
  prefers y x = false -> prefers z y = false -> prefers z x = false.
Proof.
  intros Hyx Hzy. destruct (prefers z x) eqn:Hzx; [|reflexivity].
  destruct (swo_neg_trans _ order z y x Hzx); congruence.
Qed.

Context {St : Type}.
Variable cmp : comparator St.
Hypothesis cmp_order : implements cmp prefers.

Lemma weak_merge_descending left right s out s' :
  spec_merge cmp left right s = Returned out s' ->
  descending prefers left -> descending prefers right -> descending prefers out.
Proof.
  revert left right s out s'.
  apply (merge_returned_ind cmp (fun left right _ out _ =>
    descending prefers left -> descending prefers right -> descending prefers out)).
  - auto.
  - auto.
  - intros x left y right s s1 o s' C M IH Hl Hr.
    apply (implements_reply _ _ cmp_order) in C. apply spec_merge_perm in M.
    apply StronglySorted_inv in Hl as [Hl Fl].
    constructor; [now apply IH|].
    rewrite <- M. apply Forall_app. split; [exact Fl|].
    apply StronglySorted_inv in Hr as [Hr Fr].
    constructor; [now apply weak_asym|].
    eapply Forall_impl; [exact Fr|]. intros z Hz. simpl in Hz.
    apply (weak_not_below_trans x y z); [apply weak_asym; exact C|exact Hz].
  - intros x left y right s s1 o s' C M IH Hl Hr.
    apply (implements_reply _ _ cmp_order) in C. apply spec_merge_perm in M.
    apply StronglySorted_inv in Hr as [Hr Fr].
    constructor; [now apply IH|].
    rewrite <- M. apply Forall_app. split; [|exact Fr].
    apply StronglySorted_inv in Hl as [Hl Fl].
    constructor; [exact C|].
    eapply Forall_impl; [exact Fl|]. intros z Hz. simpl in Hz.
    apply (weak_not_below_trans y x z); [exact C|exact Hz].
Qed.

(** Of the items tied with [c], those of the right half come out first. *)
Lemma weak_merge_ties c left right s out s' :
  spec_merge cmp left right s = Returned out s' ->
  descending prefers right ->
  filter (fun y => prefers c y = false /\ prefers y c = false) out =
  filter (fun y => prefers c y = false /\ prefers y c = false) right ++
  filter (fun y => prefers c y = false /\ prefers y c = false) left.
Proof.
  revert left right s out s'.
  apply (merge_returned_ind cmp (fun left right _ out _ =>
    descending prefers right ->
    filter (fun y => prefers c y = false /\ prefers y c = false) out =
    filter (fun y => prefers c y = false /\ prefers y c = false) right ++
    filter (fun y => prefers c y = false /\ prefers y c = false) left)).
  - intros right s _. now rewrite filter_nil, app_nil_r.
  - intros left s _. now rewrite filter_nil.
  - intros x left y right s s1 o s' C M IH Hr.
    apply (implements_reply _ _ cmp_order) in C.
    specialize (IH Hr). rewrite (filter_cons _ x o), (filter_cons _ x left), IH.
    case_decide as Hx; [|reflexivity].
    rewrite filter_none; [reflexivity|].
    assert (Forall (fun z => prefers z y = false) (y :: right)) as Fr.
    { apply StronglySorted_inv in Hr as [_ Fr].
      constructor; [apply (swo_irrefl _ order)|exact Fr]. }
    eapply Forall_impl; [exact Fr|]. intros z Hzy [Hcz Hzc].
    destruct Hx as [Hcx Hxc].
    destruct (swo_neg_trans _ order x z y C) as [Hxz|Hzy']; [|congruence].
    destruct (swo_neg_trans _ order x c z Hxz); congruence.
  - intros x left y right s s1 o s' C M IH Hr.
    apply StronglySorted_inv in Hr as [Hr _]. specialize (IH Hr).
    rewrite (filter_cons _ y o), (filter_cons _ y right), IH.
    case_decide; reflexivity.
Qed.

Lemma weak_sort items s out s' :
  mergeSortWithCmp cmp items s = Returned out s' ->
  descending prefers out /\ ties_reversed prefers items out.
Proof.
  revert items s out s'.
  apply (sort_returned_ind cmp (fun items _ out _ =>
    descending prefers out /\ ties_reversed prefers items out)).
  - intros items s Hs. destruct items as [|x [|y items]]; simpl in Hs; try lia.
    + split; [constructor|]. intros c. reflexivity.
    + split; [repeat constructor|]. intros c.
      rewrite filter_cons, filter_nil. case_decide; reflexivity.
  - intros items s l s1 r s2 out s' Hbig El [Dl Tl] Er [Dr Tr] M.
    split; [eapply weak_merge_descending; eauto|].
    intros c. rewrite (weak_merge_ties c _ _ _ _ _ M Dr), (Tl c), (Tr c).
    rewrite <- reverse_app, <- filter_app. now rewrite take_drop.
Qed.

End Weak.

(** *** The state is touched through the comparator only *)

Section Invariant.
Context {St : Type}.
Variable cmp : comparator St.
Variable Inv : St -> Prop.
Variable AtExit : Z -> St -> Prop.

Hypothesis cmp_keeps : forall x y s, Inv s -> kept Inv AtExit (cmp x y s).

Lemma kept_omap {R R' : Type} (f : R -> R') (o : outcome St R) :
  kept Inv AtExit (omap f o) <-> kept Inv AtExit o.
Proof. now destruct o. Qed.

Lemma spec_merge_kept left right s :
  Inv s -> kept Inv AtExit (spec_merge cmp left right s).
Proof.
  revert right s. induction left as [|x left IHl]; intros right.
  - intros s Hs. now rewrite spec_merge_nil_l.
  - induction right as [|y right IHr]; intros s Hs.
    + now rewrite spec_merge_nil_r.
    + rewrite spec_merge_cons. specialize (cmp_keeps x y s Hs).
      destruct (cmp x y s) as [[|] s1| |]; simpl in *; trivial.
      * apply kept_omap. now apply IHl.
      * apply kept_omap. now apply IHr.
Qed.

Lemma mergeSortWithCmp_kept items s :
  Inv s -> kept Inv AtExit (mergeSortWithCmp cmp items s).
Proof.
  remember (length items) as n eqn:Hn.
  assert (length items <= n) as Hle by lia. clear Hn.
  revert items Hle s.
  induction n as [|n IH]; intros items Hle s Hs.
  { now rewrite mergeSortWithCmp_small by lia. }
  destruct (decide (length items <= 1)) as [Hsmall|Hbig].
  { now rewrite mergeSortWithCmp_small by lia. }
  rewrite mergeSortWithCmp_unfold by lia. unfold bind.
  assert (0 < length items / 2 < length items) as Hmid.
  { split; [apply Nat.div_str_pos; lia | apply Nat.div_lt; lia]. }
  pose proof (IH (take (length items / 2) items)
                ltac:(rewrite length_take; lia) s Hs) as Hl.
  destruct (mergeSortWithCmp cmp (take _ items) s) as [l s1| |]; trivial.
  pose proof (IH (drop (length items / 2) items)
                ltac:(rewrite length_drop; lia) s1 Hl) as Hr.
  destruct (mergeSortWithCmp cmp (drop _ items) s1) as [r s2| |]; trivial.
  now apply spec_merge_kept.
Qed.

End Invariant.

(** ** The console oracle at the end of the input *)

Lemma split_line_none tail : one_line tail = true -> split_line tail = None.
Proof.
  induction tail as [|c tail IH]; simpl; [reflexivity|].
  intros Hl. apply andb_prop in Hl as [Hc Hl].
  apply negb_true_iff in Hc. rewrite Hc. now rewrite (IH Hl).
Qed.

Section ConsoleEnd.
Context `{StringsPkg}.

Lemma askPreference_loop_kept fuel a b w :
  kept (fun w' => stderr w' = stderr w) (console_exit (stderr w))
    (askPreference_loop fuel a b w).
Proof.
  revert w. induction fuel as [|fuel IH]; intros w; [exact I|].
  rewrite askPreference_loop_S. unfold ask_turn.
  destruct (split_line (stdin w)) as [[line rest]|].
  - repeat case_bool_decide; cbn [kept stderr]; try reflexivity.
    + left. cbn [stderr stdout]. rewrite last_snoc. auto.
    + exact (IH (World rest _ (stderr w))).
  - right. cbn [stdin stderr]. auto.
Qed.

Lemma askPreference_kept a b w e :
  stderr w = e ->
  kept (fun w' => stderr w' = e) (console_exit e) (askPreference a b w).
Proof. intros <-. apply askPreference_loop_kept. Qed.

End ConsoleEnd.

(** ** Properties of the engine *)



(** X2.  A merge that returns gives back the items of its two inputs, each
    as often as it came in; so does the console merge, which returns or
    ends the process. *)
Theorem merge_is_permutation :
  (forall (St : Type) (cmp : comparator St) left right s,
     match mergeWithCmp cmp left right s with
     | Returned out _ => left ++ right ≡ₚ out
     | _ => True
     end) /\
  (forall (G : StringsPkg) left right w,
     match interactiveMerge left right w with
     | Returned out _ => left ++ right ≡ₚ out
     | Exited _ _ => True
     | OutOfFuel => False
     end).
Proof.
  assert (forall (St : Type) (cmp : comparator St) left right s,
     match mergeWithCmp cmp left right s with
     | Returned out _ => left ++ right ≡ₚ out
     | _ => True
     end) as Hany.
  { intros St cmp left right s. rewrite mergeWithCmp_spec.
    destruct (spec_merge cmp left right s) as [out s'| |] eqn:E; trivial.
    now apply spec_merge_perm in E. }
  split; [exact Hany|].
  intros G left right w. rewrite interactiveMerge_engine.
  specialize (Hany world askPreference left right w).
  rewrite mergeWithCmp_spec in *.
  pose proof (spec_merge_fueled askPreference askPreference_fueled left right w) as Hf.
  revert Hany Hf.
  destruct (spec_merge askPreference left right w); intros Hany Hf;
    [exact Hany|trivial|congruence].
Qed.

(** X3.  Every question of a sort puts an item of the input against one
    that stood after it in the input, the earlier one as the first option:
    no item is compared with itself, and nothing but input items is
    shown. *)
Theorem calls_put_earlier_against_later (St : Type) (cmp : comparator St)
    (items : list string) (s : St) (out : list string) (s' : St) (log : list call) :
  mergeSortWithCmp (traced cmp) items (s, []) = Returned out (s', log) ->
  Forall (earlier_against_later items) log.
Proof.
  intros E. apply traced_sort_places in E as (k & Hk & Hf).
  cbn [snd] in Hk. rewrite app_nil_l in Hk. now subst k.
Qed.

Lemma calls_put_earlier_against_later_witness :
  Forall (earlier_against_later ["Cherry"; "Apple"; "Banana"])
    [("Apple", "Banana", true); ("Cherry", "Apple", false);
     ("Cherry", "Banana", false)].
Proof.
  exact (calls_put_earlier_against_later unit (pure_cmp String.ltb)
           ["Cherry"; "Apple"; "Banana"] tt ["Apple"; "Banana"; "Cherry"] tt
           [("Apple", "Banana", true); ("Cherry", "Apple", false);
            ("Cherry", "Banana", false)] eq_refl).
Defined.

(** X4.  If every reply is "the first one", the ranking is the input in
    its own order. *)
Theorem always_first_keeps_order (St : Type) (cmp : comparator St)
    (items : list string) (s : St) :
  implements cmp (fun _ _ => true) ->
  exists s', mergeSortWithCmp cmp items s = Returned items s'.
Proof.
  intros Hc.
  destruct (mergeSortWithCmp_returns cmp items s (implements_answers _ _ Hc))
    as (out & s' & E).
  exists s'. rewrite E. f_equal. eapply sort_always_first; eauto.
Qed.

Lemma always_first_keeps_order_witness :
  exists s',
    mergeSortWithCmp (pure_cmp (fun _ _ => true)) ["Cherry"; "Apple"; "Banana"] tt
    = Returned ["Cherry"; "Apple"; "Banana"] s'.
Proof.
  exact (always_first_keeps_order unit (pure_cmp (fun _ _ => true))
           ["Cherry"; "Apple"; "Banana"] tt (pure_cmp_implements _)).
Defined.

(** X5.  If every reply is "the second one", the ranking is the input
    reversed. *)
Theorem always_second_reverses (St : Type) (cmp : comparator St)
    (items : list string) (s : St) :
  implements cmp (fun _ _ => false) ->
  exists s', mergeSortWithCmp cmp items s = Returned (reverse items) s'.
Proof.
  intros Hc.
  destruct (mergeSortWithCmp_returns cmp items s (implements_answers _ _ Hc))
    as (out & s' & E).
  exists s'. rewrite E. f_equal. eapply sort_always_second; eauto.
Qed.

Lemma always_second_reverses_witness :
  exists s',
    mergeSortWithCmp (pure_cmp (fun _ _ => false)) ["Cherry"; "Apple"; "Banana"] tt
    = Returned (reverse ["Cherry"; "Apple"; "Banana"]) s'.
Proof.
  exact (always_second_reverses unit (pure_cmp (fun _ _ => false))
           ["Cherry"; "Apple"; "Banana"] tt (pure_cmp_implements _)).
Defined.

(** X6.  The engine has no exit of its own: when a sort ends the process,
    a call of the comparator on two items of the input ended it, with that
    status and in that state; nothing is done after that call. *)
Theorem sort_exit_is_comparator_exit (St : Type) (cmp : comparator St)
    (items : list string) (s : St) (c : Z) (s' : St) :
  mergeSortWithCmp cmp items s = Exited c s' ->
  exists x y s0, x ∈ items /\ y ∈ items /\ cmp x y s0 = Exited c s'.
Proof. apply mergeSortWithCmp_exit. Qed.

Lemma sort_exit_is_comparator_exit_witness :
  exists x y s0, x ∈ ["X"; "Y"; "Z"] /\ y ∈ ["X"; "Y"; "Z"] /\
    (fun (_ _ : string) (script : list bool) =>
       match script with
       | [] => Exited 3%Z script
       | reply :: script' => Returned reply script'
       end) x y s0 = Exited 3%Z [].
Proof.
  exact (sort_exit_is_comparator_exit (list bool)
           (fun _ _ script =>
              match script with
              | [] => Exited 3%Z script
              | reply :: script' => Returned reply script'
              end)
           ["X"; "Y"; "Z"] [true] 3%Z [] eq_refl).
Defined.

(** X7.  When the comparator answers by an order that may leave items
    tied, the sort still returns its input rearranged most preferred
    first, and items tied with each other come out in the reverse of their
    input order: at a tie the merge takes the item of the right half. *)
Theorem weak_order_ranking (prefers : string -> string -> bool)
    (St : Type) (cmp : comparator St) (items : list string) (s : St) :
  strict_weak_order prefers ->
  implements cmp prefers ->
  exists out s',
    mergeSortWithCmp cmp items s = Returned out s' /\
    items ≡ₚ out /\
    descending prefers out /\
    ties_reversed prefers items out.
Proof.
  intros Ho Hc.
  destruct (mergeSortWithCmp_returns cmp items s (implements_answers _ _ Hc))
    as (out & s' & E).
  exists out, s'. split; [exact E|]. split; [eapply mergeSortWithCmp_perm; eauto|].
  eapply weak_sort; eauto.
Qed.

Lemma weak_order_ranking_witness :
  exists out s',
    mergeSortWithCmp (pure_cmp (fun x y => (String.length x <? String.length y)%nat))
      ["fig"; "kiwi"; "pear"; "yam"] tt = Returned out s' /\
    ["fig"; "kiwi"; "pear"; "yam"] ≡ₚ out /\
    descending (fun x y => (String.length x <? String.length y)%nat) out /\
    ties_reversed (fun x y => (String.length x <? String.length y)%nat)
      ["fig"; "kiwi"; "pear"; "yam"] out.
Proof.
  exact (weak_order_ranking (fun x y => (String.length x <? String.length y)%nat)
           unit (pure_cmp _) ["fig"; "kiwi"; "pear"; "yam"] tt
           (score_strict_weak_order String.length) (pure_cmp_implements _)).
Defined.

Example shorter_names_first :
  mergeSortWithCmp (pure_cmp (fun x y => (String.length x <? String.length y)%nat))
    ["fig"; "kiwi"; "pear"; "yam"] tt
  = Returned ["yam"; "fig"; "pear"; "kiwi"] tt.
Proof. reflexivity. Qed.

(** X8.  The engine touches the state of the comparator through its calls
    only: a property of the state that every call keeps holds when the
    sort returns, and what every call guarantees when it ends the process
    holds when the sort ends it. *)
Theorem sort_keeps_what_calls_keep (St : Type) (cmp : comparator St)
    (Inv : St -> Prop) (AtExit : Z -> St -> Prop) (items : list string) (s : St) :
  (forall x y s0, Inv s0 -> kept Inv AtExit (cmp x y s0)) ->
  Inv s ->
  kept Inv AtExit (mergeSortWithCmp cmp items s).
Proof. intros Hc Hs. now apply mergeSortWithCmp_kept. Qed.

Lemma sort_keeps_what_calls_keep_witness :
  kept (fun n => 5 <= n) (fun _ _ => False)
    (mergeSortWithCmp (fun x y n => Returned (String.ltb x y) (S n))
       ["Cherry"; "Apple"; "Banana"] 5).
Proof.
  apply (sort_keeps_what_calls_keep nat
           (fun x y n => Returned (String.ltb x y) (S n))
           (fun n => 5 <= n) (fun _ _ => False)).
  - intros x y n Hn. simpl. lia.
  - lia.
Defined.

(** ** Properties of the console oracle and engine *)

(** X9.  When the input ends before a recognised answer, even in the
    middle of a line that would be one, [askPreference] ends the process
    with status 1: after the lines it turned down it has prompted once
    more, and the read error is the one line it adds to the error
    stream. *)
Theorem askPreference_end_of_input `{StringsPkg} (a b : string) (bad : list string)
    (tail : string) (o e : list string) :
  forallb rejected bad = true ->
  one_line tail = true ->
  askPreference a b (World (feed bad tail) o e) =
  Exited 1 (World "" (o ++ retries (length bad) a b ++ prompt a b)
              (e ++ ["read error: EOF" +:+ nl])).
Proof.
  intros Hbad Htail.
  rewrite (askPreference_retries _ _ _ _ _ _ Hbad), askPreference_turn.
  unfold ask_turn. cbn [stdin stdout stderr].
  rewrite (split_line_none _ Htail). now rewrite <- app_assoc.
Qed.

Lemma askPreference_end_of_input_witness :
  askPreference "Apple" "Banana" (World (feed ["banana"] "1") [] []) =
  Exited 1 (World "" ([] ++ retries 1 "Apple" "Banana" ++ prompt "Apple" "Banana")
              ([] ++ ["read error: EOF" +:+ nl])).
Proof.
  exact (askPreference_end_of_input (H := ascii_strings) "Apple" "Banana"
           ["banana"] "1" [] [] eq_refl eq_refl).
Defined.

(** X10.  The console oracle and the console sort write to the error
    stream only when they end the process at the end of the input.  They
    return with the error stream as it was, or end with status 0 right
    after printing ["Quitting."] with the error stream as it was, or end
    with status 1 with the whole input read and the read error as the one
    new line of the error stream. *)
Theorem console_sort_outcomes (G : StringsPkg) :
  (forall a b w,
     kept (fun w' => stderr w' = stderr w) (console_exit (stderr w))
       (askPreference a b w) /\
     askPreference a b w <> OutOfFuel) /\
  (forall items w,
     kept (fun w' => stderr w' = stderr w) (console_exit (stderr w))
       (interactiveMergeSort items w) /\
     interactiveMergeSort items w <> OutOfFuel).
Proof.
  split.
  - intros a b w. split; [now apply askPreference_kept|apply askPreference_fueled].
  - intros items w. rewrite interactiveMergeSort_engine. split.
    + apply mergeSortWithCmp_kept; [|reflexivity].
      intros x y w0 Hw0. now apply askPreference_kept.
    + apply mergeSortWithCmp_fueled, askPreference_fueled.
Qed.

(** ** Reading the items *)

Lemma string_length_app (s1 s2 : string) :
  String.length (s1 +:+ s2) = String.length s1 + String.length s2.
Proof. induction s1 as [|c s1 IH]; simpl; [reflexivity|]. now rewrite IH. Qed.

Lemma Split_lines_one_line line :
  one_line line = true -> Split_lines line = [line].
Proof.
  induction line as [|c line IH]; simpl; [reflexivity|].
  intros Hl. apply andb_prop in Hl as [Hc Hl].
  apply negb_true_iff in Hc. rewrite Hc. now rewrite (IH Hl).
Qed.

Lemma Split_lines_cons line rest :
  one_line line = true ->
  Split_lines (line +:+ nl +:+ rest) = line :: Split_lines rest.
Proof.
  induction line as [|c line IH]; simpl; [reflexivity|].
  intros Hl. apply andb_prop in Hl as [Hc Hl].
  apply negb_true_iff in Hc. rewrite Hc.
  fold (nl +:+ rest)%string. now rewrite (IH Hl).
Qed.

Lemma Split_lines_concat line lines :
  forallb one_line (line :: lines) = true ->
  Split_lines (String.concat nl (line :: lines)) = line :: lines.
Proof.
  revert line. induction lines as [|l lines IH]; intros line Hl;
    cbn [forallb] in Hl; apply andb_prop in Hl as [Hline Hl].
  - now apply Split_lines_one_line.
  - cbn [String.concat]. rewrite Split_lines_cons by assumption.
    f_equal. now apply IH.
Qed.

Section Items.
Context `{StringsPkg}.

Lemma keep_trimmed_filter xs items :
  keep_trimmed xs items =
  items ++ filter (fun x => x <> EmptyString) (map TrimSpace xs).
Proof.
  revert items. induction xs as [|x xs IH]; intros items; cbn [keep_trimmed map].
  - now rewrite filter_nil, app_nil_r.
  - rewrite filter_cons. destruct (decide (TrimSpace x = EmptyString)) as [E|E].
    + rewrite IH. destruct (decide (TrimSpace x <> EmptyString)); [contradiction|].
      reflexivity.
    + rewrite IH. destruct (decide (TrimSpace x <> EmptyString)); [|contradiction].
      now rewrite <- app_assoc.
Qed.

Lemma read_items_loop_blank entered blank rest fuel items o e :
  forallb item_line entered = true ->
  blank_line blank = true ->
  String.length (feed (entered ++ [blank]) rest) < fuel ->
  read_items_loop fuel items (World (feed (entered ++ [blank]) rest) o e) =
  Returned (items ++ map (fun l => TrimSpace (l +:+ nl)) entered)
    (World rest (o ++ replicate (S (length entered)) "> ") e).
Proof.
  intros Hent Hblank. revert fuel items o.
  induction entered as [|line entered IH]; intros fuel items o Hfuel.
  - destruct fuel as [|fuel]; [lia|].
    apply andb_prop in Hblank as [Hl Hb]. apply bool_decide_eq_true in Hb.
    cbn [read_items_loop]. unfold bind, Print, ReadString.
    cbn [stdin stdout stderr app feed foldr].
    rewrite (split_line_one_line _ _ Hl). rewrite Hb.
    destruct (decide (EmptyString = EmptyString)); [|contradiction].
    unfold ret. now rewrite app_nil_r.
  - destruct fuel as [|fuel]; [lia|].
    cbn [forallb] in Hent. apply andb_prop in Hent as [Hline Hent].
    apply andb_prop in Hline as [Hl Hne].
    apply negb_true_iff, bool_decide_eq_false in Hne.
    cbn [read_items_loop]. unfold bind, Print, ReadString.
    cbn [stdin stdout stderr app feed foldr].
    rewrite (split_line_one_line _ _ Hl).
    destruct (decide (TrimSpace (line +:+ nl) = EmptyString)); [contradiction|].
    fold (feed (entered ++ [blank]) rest).
    rewrite (IH Hent).
    + cbn [map length replicate]. rewrite <- !app_assoc. reflexivity.
    + cbn [app feed foldr] in Hfuel. fold (feed (entered ++ [blank]) rest) in Hfuel.
      rewrite !string_length_app in Hfuel. simpl in Hfuel. lia.
Qed.

Lemma read_items_loop_end entered tail fuel items o e :
  forallb item_line entered = true ->
  one_line tail = true ->
  String.length (feed entered tail) < fuel ->
  read_items_loop fuel items (World (feed entered tail) o e) =
  Exited 1 (World "" (o ++ replicate (S (length entered)) "> ")
              (e ++ ["read error: EOF" +:+ nl])).
Proof.
  intros Hent Htail. revert fuel items o.
  induction entered as [|line entered IH]; intros fuel items o Hfuel.
  - destruct fuel as [|fuel]; [lia|].
    cbn [read_items_loop]. unfold bind, Print, ReadString.
    cbn [stdin stdout stderr feed foldr].
    rewrite (split_line_none _ Htail). reflexivity.
  - destruct fuel as [|fuel]; [lia|].
    cbn [forallb] in Hent. apply andb_prop in Hent as [Hline Hent].
    apply andb_prop in Hline as [Hl Hne].
    apply negb_true_iff, bool_decide_eq_false in Hne.
    cbn [read_items_loop]. unfold bind, Print, ReadString.
    cbn [stdin stdout stderr feed foldr].
    rewrite (split_line_one_line _ _ Hl).
    destruct (decide (TrimSpace (line +:+ nl) = EmptyString)); [contradiction|].
    fold (feed entered tail).
    rewrite (IH Hent).
    + cbn [length replicate]. rewrite <- !app_assoc. reflexivity.
    + cbn [feed foldr] in Hfuel. fold (feed entered tail) in Hfuel.
      rewrite !string_length_app in Hfuel. simpl in Hfuel. lia.
Qed.

End Items.

(** ** Printing and writing the ranking *)



Lemma imap_ranking_shift i sorted :
  imap (fun k => ranking_line (i + S k)) sorted =
  imap (fun k => ranking_line (i + 1 + k)) sorted.
Proof. apply imap_ext. intros k x _. f_equal. lia. Qed.

Lemma print_ranking_from_lines i sorted w :
  print_ranking_from i sorted w =
  Returned tt (World (stdin w)
                 (stdout w ++ imap (fun k => ranking_line (i + k)) sorted) (stderr w)).
Proof.
  revert i w. induction sorted as [|it sorted IH]; intros i w.
  - destruct w. simpl. now rewrite app_nil_r.
  - cbn [print_ranking_from]. unfold bind, Print. rewrite IH.
    cbn [stdin stdout stderr]. rewrite imap_cons, Nat.add_0_r, <- app_assoc.
    unfold compose. now rewrite imap_ranking_shift.
Qed.

Lemma print_ranking_lines sorted w :
  print_ranking sorted w =
  Returned tt (World (stdin w)
                 (stdout w ++ [ranking_header] ++ ranking_lines sorted) (stderr w)).
Proof.
  unfold print_ranking, bind, Println, Print. rewrite print_ranking_from_lines.
  cbn [stdin stdout stderr]. unfold ranking_lines, ranking_header.
  rewrite <- app_assoc. reflexivity.
Qed.



(** ** The program as a whole *)

Section MainFacts.
Context `{StringsPkg} `{Platform}.

Lemma finish_spec f sorted what w fs :
  (let* _ := on_console (print_ranking sorted) in write_out f sorted what)
    (Machine w fs) =
  write_out f sorted what
    (Machine (World (stdin w) (stdout w ++ [ranking_header] ++ ranking_lines sorted)
                (stderr w)) fs).
Proof.
  unfold bind, on_console. cbn [console files].
  now rewrite print_ranking_lines.
Qed.

Lemma interactiveMergeSort_replay {St : Type} (cmp : comparator St)
    items s out s' log rest o e :
  ToLower (TrimSpace ("1" +:+ nl)) = "1" ->
  ToLower (TrimSpace ("2" +:+ nl)) = "2" ->
  mergeSortWithCmp (traced cmp) items (s, []) = Returned out (s', log) ->
  interactiveMergeSort items (World (feed (answer_lines log) rest) o e) =
  Returned out (World rest (o ++ prompts log) e).
Proof.
  intros H1 H2 E.
  apply (replay_sort H1 H2) in E as (k & Hk & Hconsole).
  cbn [snd] in Hk. rewrite app_nil_l in Hk. subst k.
  rewrite interactiveMergeSort_engine.
  pose proof (forget_sort askPreference items
                (World (feed (answer_lines log) rest) o e, [])) as Hf.
  rewrite Hconsole in Hf. now symmetry.
Qed.




End MainFacts.

(** ** Properties of the program around the sort *)

(** X11.  From a file holding lines separated by newlines, [main] takes
    the trimmed lines that are not empty, in order; the same loop takes
    the trimmed arguments that are not empty.  No item is ever empty. *)
Theorem items_of_file_lines `{StringsPkg} (line : string) (lines args : list string) :
  forallb one_line (line :: lines) = true ->
  keep_trimmed (Split_lines (String.concat nl (line :: lines))) [] =
    filter (fun x => x <> "") (map TrimSpace (line :: lines)) /\
  keep_trimmed args [] = filter (fun x => x <> "") (map TrimSpace args) /\
  Forall (fun x => x <> "") (keep_trimmed args []).
Proof.
  intros Hl. rewrite (Split_lines_concat _ _ Hl), !keep_trimmed_filter, !app_nil_l.
  repeat split. apply Forall_forall. intros x Hx.
  now apply list_elem_of_filter in Hx as [Hx _].
Qed.

Lemma items_of_file_lines_witness :
  keep_trimmed
    (Split_lines (String.concat nl ["  Apple "; ""; "Banana"; "   "; "Cherry"; ""])) []
  = ["Apple"; "Banana"; "Cherry"].
Proof.
  exact (proj1 (items_of_file_lines (H := ascii_strings) "  Apple "
                  [""; "Banana"; "   "; "Cherry"; ""] [] eq_refl)).
Defined.

(** X12.  At the prompt, the lines typed before the first blank line are
    the items, trimmed and in order; each costs one ["> "], the blank line
    one more, and the input after the blank line stays unread for the
    questions that follow. *)
Theorem read_items_until_blank `{StringsPkg} (entered : list string)
    (blank rest : string) (o e : list string) :
  forallb item_line entered = true ->
  blank_line blank = true ->
  read_items (World (feed (entered ++ [blank]) rest) o e) =
  Returned (map (fun l => TrimSpace (l +:+ nl)) entered)
    (World rest (o ++ [items_banner] ++ replicate (S (length entered)) "> ") e).
Proof.
  intros Hent Hblank. unfold read_items, bind, Println, Print.
  cbn [stdin stdout stderr].
  rewrite (read_items_loop_blank _ _ _ _ _ _ _ Hent Hblank) by lia.
  rewrite app_nil_l, <- app_assoc. reflexivity.
Qed.

Lemma read_items_until_blank_witness :
  read_items (World (feed ([" Apple"; "Banana "] ++ ["  "]) ("1" +:+ nl)) [] []) =
  Returned (map (fun l => TrimSpace (l +:+ nl)) [" Apple"; "Banana "])
    (World ("1" +:+ nl) ([] ++ [items_banner] ++ replicate 3 "> ") []).
Proof.
  exact (read_items_until_blank (H := ascii_strings) [" Apple"; "Banana "] "  "
           ("1" +:+ nl) [] [] eq_refl eq_refl).
Defined.

(** X13.  At the prompt, when the input ends before a blank line, the
    items typed so far are dropped: the process ends with status 1 and the
    read error on the error stream. *)
Theorem read_items_end_of_input `{StringsPkg} (entered : list string)
    (tail : string) (o e : list string) :
  forallb item_line entered = true ->
  one_line tail = true ->
  read_items (World (feed entered tail) o e) =
  Exited 1 (World "" (o ++ [items_banner] ++ replicate (S (length entered)) "> ")
              (e ++ ["read error: EOF" +:+ nl])).
Proof.
  intros Hent Htail. unfold read_items, bind, Println, Print.
  cbn [stdin stdout stderr].
  rewrite (read_items_loop_end _ _ _ _ _ _ Hent Htail) by lia.
  rewrite <- app_assoc. reflexivity.
Qed.

Lemma read_items_end_of_input_witness :
  read_items (World (feed ["Apple"; "Banana"] "Cherry") [] []) =
  Exited 1 (World "" ([] ++ [items_banner] ++ replicate 3 "> ")
              ([] ++ ["read error: EOF" +:+ nl])).
Proof.
  exact (read_items_end_of_input (H := ascii_strings) ["Apple"; "Banana"] "Cherry"
           [] [] eq_refl eq_refl).
Defined.

(** X14.  [main] ends with status 1, before it asks or prints anything
    and before it touches a file, when the file of items cannot be read,
    and when the file or the arguments leave no item after trimming; the
    reason is the one line it adds to the error stream. *)
Theorem main_without_items `{StringsPkg} `{Platform} (f : flags) (st : machine) :
  (forall err,
     filePath f <> "" ->
     os_ReadFile (filePath f) (files st) = inl err ->
     main f st =
     Exited 1 (Machine (World (stdin (console st)) (stdout (console st))
                          (stderr (console st) ++ ["failed to read file: " +:+ err +:+ nl]))
                 (files st))) /\
  (forall data,
     filePath f <> "" ->
     os_ReadFile (filePath f) (files st) = inr data ->
     Forall (fun piece => TrimSpace piece = "") (Split_lines data) ->
     main f st =
     Exited 1 (Machine (World (stdin (console st)) (stdout (console st))
                          (stderr (console st) ++ ["no items provided; exiting" +:+ nl]))
                 (files st))) /\
  (filePath f = "" ->
   0 < length (args f) ->
   Forall (fun piece => TrimSpace piece = "") (args f) ->
   main f st =
   Exited 1 (Machine (World (stdin (console st)) (stdout (console st))
                        (stderr (console st) ++ ["no items provided; exiting" +:+ nl]))
               (files st))).
Proof.
  assert (forall xs, Forall (fun piece => TrimSpace piece = "") xs ->
            keep_trimmed xs [] = []) as Hnone.
  { intros xs Hxs. rewrite keep_trimmed_filter, app_nil_l.
    apply filter_none. rewrite Forall_fmap.
    eapply Forall_impl; [exact Hxs|]. intros x Hx. simpl. now intros Hne. }
  split; [|split].
  - intros err Hpath Hread. unfold main, bind, acquire.
    destruct (decide (filePath f <> "")); [|contradiction].
    rewrite Hread. reflexivity.
  - intros data Hpath Hread Hblank. unfold main, bind, acquire.
    destruct (decide (filePath f <> "")); [|contradiction].
    rewrite Hread, (Hnone _ Hblank). reflexivity.
  - intros Hpath Hargs Hblank. unfold main, bind, acquire.
    destruct (decide (filePath f <> "")); [contradiction|].
    destruct (decide (0 < length (args f))); [|contradiction].
    unfold ret. rewrite (Hnone _ Hblank). reflexivity.
Qed.

Lemma main_without_items_witness :
  main (Flags "" true "ranking.txt" ["  "; ""]) (Machine (World "1" [] []) ∅) =
  Exited 1 (Machine (World "1" [] ([] ++ ["no items provided; exiting" +:+ nl])) ∅).
Proof.
  refine (proj2 (proj2 (main_without_items (H := ascii_strings)
            (Flags "" true "ranking.txt" ["  "; ""]) (Machine (World "1" [] []) ∅)))
            eq_refl _ _).
  - simpl. lia.
  - repeat constructor.
Defined.

(** X15.  A console run from the items to the ranking.  Once the items
    are there, if a comparator's sort of them returns the ranking [out]
    after the recorded calls, then [main], reading the lines that give
    the same replies, prints the two lines of its banner, the prompts of
    those calls in order, the header and the numbered ranking [out], leaves
    the rest of the input unread and the error stream as it was, and goes
    on to the output file with that same ranking. *)
Theorem main_console_run `{StringsPkg} `{Platform} (St : Type) (cmp : comparator St)
    (f : flags) (st0 : machine) (items : list string) (s : St)
    (out : list string) (s' : St) (log : list call)
    (rest : string) (o e : list string) (fs : gmap string string) :
  ToLower (TrimSpace ("1" +:+ nl)) = "1" ->
  ToLower (TrimSpace ("2" +:+ nl)) = "2" ->
  tuiMode f = false ->
  acquire f st0 =
    Returned items (Machine (World (feed (answer_lines log) rest) o e) fs) ->
  0 < length items ->
  mergeSortWithCmp (traced cmp) items (s, []) = Returned out (s', log) ->
  main f st0 =
  write_out f out "failed to write output file: "
    (Machine (World rest
                (o ++ questions_banner (length items) ++ prompts log ++
                 [ranking_header] ++ ranking_lines out) e) fs).
Proof.
  intros H1 H2 Hmode Hacq Hlen Hrun. unfold main. unfold bind at 1. rewrite Hacq.
  destruct (decide (length items = 0)); [lia|]. rewrite Hmode.
  unfold bind at 1. unfold on_console at 1, Print. cbn [console files stdin stdout stderr].
  unfold bind at 1. unfold on_console at 1, Println, Print.
  cbn [console files stdin stdout stderr].
  unfold bind at 1. unfold on_console at 1. cbn [console files].
  rewrite (interactiveMergeSort_replay cmp _ _ _ _ _ _ _ _ H1 H2 Hrun).
  rewrite finish_spec. cbn [stdin stdout stderr].
  unfold questions_banner. rewrite <- !app_assoc. reflexivity.
Qed.

Lemma main_console_run_witness :
  main (Flags "" false "" [" Cherry"; ""; "Apple "; "Banana"])
    (Machine (World (feed ["1"; "2"; "2"] "") [] []) ∅) =
  write_out (Flags "" false "" [" Cherry"; ""; "Apple "; "Banana"])
    ["Apple"; "Banana"; "Cherry"] "failed to write output file: "
    (Machine (World ""
                ([] ++ questions_banner 3 ++
                 prompts [("Apple", "Banana", true); ("Cherry", "Apple", false);
                          ("Cherry", "Banana", false)] ++
                 [ranking_header] ++ ranking_lines ["Apple"; "Banana"; "Cherry"]) []) ∅).
Proof.
  refine (main_console_run (H := ascii_strings) (H0 := example_platform)
            unit (pure_cmp String.ltb)
            (Flags "" false "" [" Cherry"; ""; "Apple "; "Banana"])
            (Machine (World (feed ["1"; "2"; "2"] "") [] []) ∅)
            ["Cherry"; "Apple"; "Banana"] tt ["Apple"; "Banana"; "Cherry"] tt
            [("Apple", "Banana", true); ("Cherry", "Apple", false);
             ("Cherry", "Banana", false)]
            "" [] [] ∅ eq_refl eq_refl eq_refl eq_refl _ eq_refl).
  simpl. lia.
Defined.



(** X17.  In TUI mode [main] prints no banner and asks nothing at the
    console: once the items are there and [RunTUI] has returned a ranking,
    it prints the header and that ranking, numbered, and goes on to the
    output file with it. *)
Theorem main_tui_run `{StringsPkg} `{Platform} (f : flags) (st0 st1 : machine)
    (items sorted : list string) (w : world) (fs : gmap string string) :
  tuiMode f = true ->
  acquire f st0 = Returned items st1 ->
  0 < length items ->
  RunTUI items st1 = Returned sorted (Machine w fs) ->
  main f st0 =
  write_out f sorted "failed to write output: "
    (Machine (World (stdin w) (stdout w ++ [ranking_header] ++ ranking_lines sorted)
                (stderr w)) fs).
Proof.
  intros Hmode Hacq Hlen Hrun. unfold main. unfold bind at 1. rewrite Hacq.
  destruct (decide (length items = 0)); [lia|]. rewrite Hmode.
  unfold bind at 1. rewrite Hrun. apply finish_spec.
Qed.

Lemma main_tui_run_witness :
  main (Flags "" true "" ["Cherry"; "Apple"]) (Machine (World "" [] []) ∅) =
  write_out (Flags "" true "" ["Cherry"; "Apple"]) ["Cherry"; "Apple"]
    "failed to write output: "
    (Machine (World "" ([] ++ [ranking_header] ++ ranking_lines ["Cherry"; "Apple"]) [])
       ∅).
Proof.
  refine (main_tui_run (H := ascii_strings) (H0 := example_platform)
            (Flags "" true "" ["Cherry"; "Apple"]) (Machine (World "" [] []) ∅)
            (Machine (World "" [] []) ∅) ["Cherry"; "Apple"] ["Cherry"; "Apple"]
            (World "" [] []) ∅ eq_refl eq_refl _ eq_refl).
  simpl. lia.
Defined.



Example ranking_text :
  file_text ["Apple"; "Banana"] = "1. Apple" +:+ nl +:+ "2. Banana" +:+ nl.
Proof. reflexivity. Qed.

(** ** Properties of the UI loop *)

Lemma key_in_spec key names : Tui.key_in key names = true <-> key ∈ names.
Proof.
  unfold Tui.key_in. rewrite existsb_exists. split.
  - intros (x & Hx & E). apply String.eqb_eq in E. subst.
    now apply list_elem_of_In.
  - intros Hk. exists key. split; [now apply list_elem_of_In|apply String.eqb_refl].
Qed.

(** X19.  In a session where each request is followed by one key press
    that is not a quit key, the UI sends exactly one reply per request
    that has a channel and got a left or right key: [true] for left or
    [h], [false] for right or [l], on the channel of that request, in the
    order of the requests, whatever state the UI started in. *)
Theorem session_answers_each_request (m : Tui.model)
    (turns : list (Tui.compareRequest * string)) :
  forallb (fun t => negb (quit_key (snd t))) turns = true ->
  snd (Tui.run_ui m (session turns)) = session_replies turns.
Proof.
  revert m. induction turns as [|[r key] turns IH]; intros m Hq; [reflexivity|].
  cbn [forallb snd] in Hq. apply andb_prop in Hq as [Hkey Hq].
  apply negb_true_iff in Hkey. unfold quit_key in Hkey.
  cbn [session session_replies Tui.run_ui Tui.Update Tui.Init Tui.req].
  unfold answer_of_key. rewrite Hkey.
  destruct (Tui.key_in key ["left"; "h"]);
    [|destruct (Tui.key_in key ["right"; "l"])];
    destruct (Tui.Resp r) as [ch|];
    match goal with
    | |- context [Tui.run_ui ?m' (session turns)] =>
        specialize (IH m' Hq); destruct (Tui.run_ui m' (session turns))
    end; cbn [snd] in *; now subst.
Qed.

Lemma session_answers_each_request_witness :
  snd (Tui.run_ui (Tui.initialModel 0)
         (session [(Tui.CompareRequest "Apple" "Banana" (Some 1), "left");
                   (Tui.CompareRequest "Apple" "Cherry" (Some 2), "x");
                   (Tui.CompareRequest "Banana" "Cherry" (Some 3), "l")]))
  = [(1, true); (3, false)].
Proof.
  exact (session_answers_each_request (Tui.initialModel 0)
           [(Tui.CompareRequest "Apple" "Banana" (Some 1), "left");
            (Tui.CompareRequest "Apple" "Cherry" (Some 2), "x");
            (Tui.CompareRequest "Banana" "Cherry" (Some 3), "l")] eq_refl).
Defined.

(** X20.  [Update] asks the runtime to quit exactly on a quit message and
    on the keys [q] and [ctrl+c]; it then leaves the model as it was and
    sends no reply, so a pending request stays unanswered. *)
Theorem ui_quits_exactly (m : Tui.model) (x : Tui.msg) :
  (snd (fst (Tui.Update m x)) = Tui.cmdQuit <->
   x = Tui.quitMsg \/ exists key, x = Tui.KeyMsg key /\ (key = "q" \/ key = "ctrl+c")) /\
  (snd (fst (Tui.Update m x)) = Tui.cmdQuit ->
   fst (fst (Tui.Update m x)) = m /\ snd (Tui.Update m x) = []).
Proof.
  destruct x as [r|key| | |]; cbn [Tui.Update Tui.Init fst snd].
  - split; [split|]; try discriminate. intros [E|(k & E & _)]; discriminate.
  - assert (Tui.key_in key ["q"; "ctrl+c"] = true <-> key = "q" \/ key = "ctrl+c") as Hq.
    { rewrite key_in_spec, !elem_of_cons. split; [|tauto].
      intros [?|[?|Hn]]; auto. now apply elem_of_nil in Hn. }
    destruct (Tui.key_in key ["left"; "h"]) eqn:Hl.
    { assert (~ (key = "q" \/ key = "ctrl+c")) as Hn.
      { intros [->| ->]; vm_compute in Hl; discriminate. }
      destruct (Tui.req m); cbn [fst snd]; (split; [split|]); try discriminate.
      all: intros [E|(k & E & Hk)]; [discriminate|]; inversion E; subst; tauto. }
    destruct (Tui.key_in key ["right"; "l"]) eqn:Hr.
    { assert (~ (key = "q" \/ key = "ctrl+c")) as Hn.
      { intros [->| ->]; vm_compute in Hr; discriminate. }
      destruct (Tui.req m); cbn [fst snd]; (split; [split|]); try discriminate.
      all: intros [E|(k & E & Hk)]; [discriminate|]; inversion E; subst; tauto. }
    destruct (Tui.key_in key ["q"; "ctrl+c"]) eqn:Hk; cbn [fst snd].
    + split; [|auto]. split; [|reflexivity].
      intros _. right. exists key. split; [reflexivity|]. now apply Hq.
    + split; [split|]; try discriminate.
      intros [E|(k & E & Hk')]; [discriminate|]. inversion E; subst.
      apply Hq in Hk'. discriminate.
  - split; [split|]; auto.
  - split; [split|]; try discriminate. intros [E|(k & E & _)]; discriminate.
  - split; [split|]; try discriminate. intros [E|(k & E & _)]; discriminate.
Qed.

Lemma ui_quits_exactly_witness :
  fst (fst (Tui.Update (Tui.Model 0 "Apple" "Banana" (Some 7) "") (Tui.KeyMsg "ctrl+c")))
    = Tui.Model 0 "Apple" "Banana" (Some 7) "" /\
  snd (Tui.Update (Tui.Model 0 "Apple" "Banana" (Some 7) "") (Tui.KeyMsg "ctrl+c")) = [].
Proof.
  exact (proj2 (ui_quits_exactly (Tui.Model 0 "Apple" "Banana" (Some 7) "")
                  (Tui.KeyMsg "ctrl+c")) eq_refl).
Defined.

(** X21.  The UI holds one request: a request that arrives while another
    is pending takes its place, and the request it replaced gets no reply
    afterwards, unless it is delivered again. *)
Theorem pending_request_is_replaced (m : Tui.model) (r : Tui.compareRequest)
    (msgs : list Tui.msg) (c : nat) :
  Tui.req m = Some c ->
  Tui.Resp r <> Some c ->
  Tui.sends_on c (snd (Tui.run_ui m (Tui.cmpRequestMsg r :: msgs)))
    <= Tui.requests_for c msgs.
Proof.
  intros Hreq Hother. cbn [Tui.run_ui Tui.Update Tui.Init].
  match goal with
  | |- context [Tui.run_ui ?m' msgs] =>
      pose proof (run_ui_sends c msgs m') as Hrun;
      destruct (Tui.run_ui m' msgs) as [m'' out]
  end.
  unfold Tui.pending_on in Hrun. cbn [Tui.req snd app] in *.
  destruct (decide (Tui.Resp r = Some c)); [contradiction|]. exact Hrun.
Qed.

Lemma pending_request_is_replaced_witness :
  Tui.sends_on 7
    (snd (Tui.run_ui (Tui.Model 0 "Apple" "Banana" (Some 7) "")
            (Tui.cmpRequestMsg (Tui.CompareRequest "Apple" "Cherry" (Some 8))
             :: [Tui.KeyMsg "left"; Tui.KeyMsg "left"])))
    <= Tui.requests_for 7 [Tui.KeyMsg "left"; Tui.KeyMsg "left"].
Proof.
  apply (pending_request_is_replaced (Tui.Model 0 "Apple" "Banana" (Some 7) "")
           (Tui.CompareRequest "Apple" "Cherry" (Some 8))
           [Tui.KeyMsg "left"; Tui.KeyMsg "left"] 7).
  - reflexivity.
  - discriminate.
Defined.
